(** * Troubleshooting commands of the tournaments cog

    A shallow embedding of [tournaments/troubleshooting.py]: the operator
    commands of the [tournamentfix] group (reload, restore, hardreset,
    resetmatches, resetparticipants, refresh, pausetask, resumetask,
    runtaskonce), as state transformers over the cog's registry of live
    tournaments, the objects they point to, and the saved data on disk.

    The commands call into modules of the cog that are outside this file
    ([utils.only_phase], [Tournament.save], [Tournament.stop_loop_task],
    [Tournament.start_loop_task], the loop body, [_restore_tournament]);
    those are modelled from the specification and marked as such. *)

From Stdlib Require Import ZArith Lia.
From stdpp Require Import gmap strings list fin_maps.

(** ** Data *)

(** Values found in the dictionary returned by the bracket service. *)
Inductive Value :=
| VNone
| VStr (s : string)
| VInt (n : Z).

(** Per-match state. *)
Inductive MatchStatus := MPending | MOngoing | MFinished | MFlaggedAfk.

Global Instance MatchStatus_eq_dec : EqDecision MatchStatus.
Proof. solve_decision. Defined.

Record Match := mkMatch {
  match_id : Z;
  players : list Z;
  channel : option Z;          (* the match's venue, [None] when there is none *)
  status : MatchStatus;
  afk_disabled : bool;         (* AFK flagging switched off for this match *)
  last_activity : Z;
  on_stream : bool
}.

Record Participant := mkParticipant {
  member : Z;
  checked_in : bool
}.

(** Registration and check-in windows, computed once at setup. *)
Record Timing := mkTiming {
  register_start : option Z;
  register_stop : option Z;
  checkin_start : option Z;
  checkin_stop : option Z
}.

(** Handle of the scheduled loop; [tournament.task is None] when stopped. *)
Inductive Task := LoopTask.

Definition set_status (s : MatchStatus) (m : Match) : Match :=
  mkMatch (match_id m) (players m) (channel m) s (afk_disabled m)
    (last_activity m) (on_stream m).

Definition set_channel (c : option Z) (m : Match) : Match :=
  mkMatch (match_id m) (players m) c (status m) (afk_disabled m)
    (last_activity m) (on_stream m).

Definition set_afk_disabled (b : bool) (m : Match) : Match :=
  mkMatch (match_id m) (players m) (channel m) (status m) b
    (last_activity m) (on_stream m).

Definition set_on_stream (b : bool) (m : Match) : Match :=
  mkMatch (match_id m) (players m) (channel m) (status m) (afk_disabled m)
    (last_activity m) b.

Record Tournament := mkTournament {
  guild : Z;
  tournament_id : Z;
  name : Value;
  limit : Value;
  phase : string;
  participants : list Participant;
  matches : list Match;
  participant_role : option Z;
  timing : Timing;
  task : option Task
}.

Definition set_name (v : Value) (t : Tournament) : Tournament :=
  mkTournament (guild t) (tournament_id t) v (limit t) (phase t)
    (participants t) (matches t) (participant_role t) (timing t) (task t).

Definition set_limit (v : Value) (t : Tournament) : Tournament :=
  mkTournament (guild t) (tournament_id t) (name t) v (phase t)
    (participants t) (matches t) (participant_role t) (timing t) (task t).

Definition set_participants (ps : list Participant) (t : Tournament) : Tournament :=
  mkTournament (guild t) (tournament_id t) (name t) (limit t) (phase t)
    ps (matches t) (participant_role t) (timing t) (task t).

Definition set_matches (ms : list Match) (t : Tournament) : Tournament :=
  mkTournament (guild t) (tournament_id t) (name t) (limit t) (phase t)
    (participants t) ms (participant_role t) (timing t) (task t).

Definition set_task (k : option Task) (t : Tournament) : Tournament :=
  mkTournament (guild t) (tournament_id t) (name t) (limit t) (phase t)
    (participants t) (matches t) (participant_role t) (timing t) k.

(** What [self.data.guild(guild).tournament] holds: the empty dictionary
    [{}] or the saved form of a tournament. *)
Inductive Saved :=
| SEmpty
| SData (d : Tournament).

(** Python truthiness of the saved dictionary: only [{}] is falsy. *)
Definition truthy (s : Saved) : bool :=
  match s with SEmpty => false | SData _ => true end.

(** Exceptions; all of them are caught by [except Exception]. *)
Inductive Exn :=
| KeyError (key : Value)
| ReferenceError
| HTTPException
| Exception (what : string).

(** Messages sent to the operator with [ctx.send]. *)
Inductive Msg :=
| MsgReloadFailed         (* unloaded from memory, but an error occured when reloading *)
| MsgReloaded             (* Tournament successfully reloaded. *)
| MsgAlreadySetup         (* There's already a tournament setup on this server. *)
| MsgNothingOnDisk        (* I can't find any saved tournament on disk. *)
| MsgRestoreFailed        (* found on disk, but it cannot be reloaded *)
| MsgRestored             (* Tournament successfully loaded from disk. *)
| MsgHardresetPrompt      (* This command is dangerous ... Do you want to continue? *)
| MsgTimedOut
| MsgCancelled
| MsgHardresetDone        (* Everything was successfully internally reset. *)
| MsgMatchesReset
| MsgMatchesResetDeleting (* Matches reset. Starting channels deletion ... *)
| MsgChannelsDeleted (failed : nat)    (* the count line is printed when non-zero *)
| MsgParticipantsReset
| MsgParticipantsResetRemoving
| MsgRolesRemoved (failed : nat)       (* the count line is printed when non-zero *)
| MsgRefreshed            (* Tournament name and limit of participants updated. *)
| MsgTaskNotActive        (* The task isn't active right now. *)
| MsgTaskStopped          (* Loop task stopped. Resume it with tfix resumetask *)
| MsgResumeFailed         (* I attempted to run the task once but it failed. *)
| MsgResumed              (* The loop task was successfully resumed. *)
| MsgRunOnceFailed.       (* An error occured. Check your logs ... *)

(** Everything a command does outside the cog's own memory and disk:
    messages, log lines, and calls to the chat platform and the bracket
    service. *)
Inductive Event :=
| Send (m : Msg)
| LogError (e : Exn)
| LogInfo
| Tick                                   (* ctx.tick() *)
| ConfigWrite (g : Z) (s : Saved)        (* data.guild(guild).tournament.set(s) *)
| CallRestore (g : Z)                    (* _restore_tournament(guild) *)
| CallShow (tid : Z)                     (* ChallongeTournament.show(id) *)
| CallChannelDelete (c : Z)              (* channel.delete() *)
| CallRemoveRoles (m : Z) (role : option Z)   (* participant.remove_roles(role) *)
| CallFetchParticipants (tid : Z)
| CallFetchMatches (tid : Z)
| CallCreateVenue (mid : Z)
| CallDeleteVenue (c : Z).

Definition is_external (e : Event) : bool :=
  match e with
  | Send _ | LogError _ | LogInfo | Tick | ConfigWrite _ _ | CallRestore _ =>
      false
  | _ => true
  end.

(** Outcome of one stage of the loop body. *)
Inductive StageResult (A : Type) :=
| StageOk (a : A)
| Transient
| Fatal (e : Exn).
Arguments StageOk {A} a.
Arguments Transient {A}.
Arguments Fatal {A} e.

(** The collaborators the commands call. Every call is numbered (the
    [calls] counter of the world), and a collaborator answers from the
    number of the call and its arguments, so that two calls with the same
    arguments may be answered differently. [channel_delete] and
    [remove_roles] answer [false] for [discord.HTTPException], the error
    discord.py raises for a refused, missing or failed request. *)
Record Env := mkEnv {
  channel_delete : nat → Z → bool;
  remove_roles : nat → Z → Z → bool;
  show : nat → Z → Exn + gmap string Value;
  from_saved_data : nat → Z → Saved → Exn + Tournament;
  fetch_participants : nat → Z → StageResult (list Z * list Z);
  fetch_matches : nat → Z → StageResult (list Match * list Z);
  prerequisites : Match → bool;
  create_venue : nat → Match → StageResult Z;
  delete_venue : nat → Z → StageResult unit;
  assign_streams : nat → StageResult unit;
  afk_threshold : Z;
  grace_period : Z;
  stream_capacity : nat
}.

(** [tournaments] is the cog's registry [self.tournaments], from guild id
    to the tournament object; [heap] holds the objects, so that an object
    dropped from the registry is still there for whoever kept a reference
    (its own loop task does); [data] is the saved data per guild; [now]
    is the clock; [calls] counts the calls made to collaborators. *)
Record World := mkWorld {
  tournaments : gmap Z nat;
  heap : list Tournament;
  data : gmap Z Saved;
  now : Z;
  calls : nat
}.

Definition with_tournaments (r : gmap Z nat) (w : World) : World :=
  mkWorld r (heap w) (data w) (now w) (calls w).

Definition with_heap (h : list Tournament) (w : World) : World :=
  mkWorld (tournaments w) h (data w) (now w) (calls w).

Definition with_data (d : gmap Z Saved) (w : World) : World :=
  mkWorld (tournaments w) (heap w) d (now w) (calls w).

Definition with_now (n : Z) (w : World) : World :=
  mkWorld (tournaments w) (heap w) (data w) n (calls w).

Definition with_calls (k : nat) (w : World) : World :=
  mkWorld (tournaments w) (heap w) (data w) (now w) k.

(** What a command leaves behind: its result or exception, the world,
    and the trace of what it did outside. *)
Definition Out (A : Type) : Type := (Exn + A) * World * list Event.

(** The events [tr] happened before those of [x]. *)
Definition after {A} (tr : list Event) (x : Out A) : Out A :=
  (x.1.1, x.1.2, tr ++ x.2).

(** The saved data of a guild; a guild that never saved has [{}]. *)
Definition saved (w : World) (g : Z) : Saved := default SEmpty (data w !! g).

Section Troubleshooting.

Variable env : Env.

(** ** Commands as state transformers with exceptions and a trace *)

Definition Cmd (A : Type) : Type := World → Out A.

Definition ret {A} (a : A) : Cmd A := λ w, (inr a, w, []).

Definition raise {A} (e : Exn) : Cmd A := λ w, (inl e, w, []).

Definition bind {A B} (c : Cmd A) (k : A → Cmd B) : Cmd B :=
  λ w, match c w with
       | (inl e, w1, tr1) => (inl e, w1, tr1)
       | (inr a, w1, tr1) => after tr1 (k a w1)
       end.

(** [try: body / except Exception as e: handler e / else: orelse].
    Exceptions of the handler and of the else branch are not caught. *)
Definition try_except_else {A B} (body : Cmd A) (handler : Exn → Cmd B)
    (orelse : A → Cmd B) : Cmd B :=
  λ w, match body w with
       | (inl e, w1, tr1) => after tr1 (handler e w1)
       | (inr a, w1, tr1) => after tr1 (orelse a w1)
       end.

Notation "'do' x <- c ; k" := (bind c (λ x, k))
  (at level 10, x name, c at level 100, k at level 200).
Notation "c ;; k" := (bind c (λ _, k))
  (at level 100, k at level 200, right associativity).

Definition emit (e : Event) : Cmd unit := λ w, (inr tt, w, [e]).
Definition send (m : Msg) : Cmd unit := emit (Send m).

Definition get_world : Cmd World := λ w, (inr w, w, []).
Definition put_world (w' : World) : Cmd unit := λ _, (inr tt, w', []).

(** [self.tournaments[guild.id]] *)
Definition registry_get (g : Z) : Cmd nat :=
  do w <- get_world;
  match tournaments w !! g with
  | Some l => ret l
  | None => raise (KeyError (VInt g))
  end.

(** [self.tournaments[guild.id] = tournament] *)
Definition registry_set (g : Z) (l : nat) : Cmd unit :=
  do w <- get_world; put_world (with_tournaments (<[g := l]> (tournaments w)) w).

(** [del self.tournaments[guild.id]] *)
Definition registry_del (g : Z) : Cmd unit :=
  do w <- get_world;
  match tournaments w !! g with
  | Some _ => put_world (with_tournaments (delete g (tournaments w)) w)
  | None => raise (KeyError (VInt g))
  end.

(** Reading and updating the object behind a reference. *)
Definition deref (l : nat) : Cmd Tournament :=
  do w <- get_world;
  match heap w !! l with
  | Some t => ret t
  | None => raise ReferenceError
  end.

Definition modify (l : nat) (f : Tournament → Tournament) : Cmd unit :=
  do w <- get_world; put_world (with_heap (alter f l (heap w)) w).

Definition alloc (t : Tournament) : Cmd nat :=
  do w <- get_world;
  put_world (with_heap (heap w ++ [t]) w);;
  ret (length (heap w)).

(** [await self.data.guild(guild).tournament()] and [.set(value)] *)
Definition config_get (g : Z) : Cmd Saved :=
  do w <- get_world; ret (saved w g).

Definition config_set (g : Z) (s : Saved) : Cmd unit :=
  emit (ConfigWrite g s);;
  do w <- get_world; put_world (with_data (<[g := s]> (data w)) w).

(** A call to a collaborator: it is answered from the number of the
    call, and the counter moves on. *)
Definition call {A} (f : nat → A) : Cmd A :=
  do w <- get_world;
  put_world (with_calls (S (calls w)) w);;
  ret (f (calls w)).

(** [await asyncio.sleep(n)] *)
Definition sleep (n : Z) : Cmd unit :=
  do w <- get_world; put_world (with_now (now w + n)%Z w).

(** [d[key]] on a dictionary. *)
Definition getitem (d : gmap string Value) (key : string) : Cmd Value :=
  match d !! key with
  | Some v => ret v
  | None => raise (KeyError (VStr key))
  end.

(** ** Methods of the tournament object *)

(** Modelled from the spec: the saved form of a tournament
    ([Tournament.to_dict], objects.py). It is the aggregate without its
    loop handle; the per-match fields are part of it. *)
Definition to_dict (t : Tournament) : Saved := SData (set_task None t).

(** Modelled from the spec: [Tournament.save] (objects.py) writes the
    full snapshot of the aggregate to the saved data of its guild. *)
Definition save (l : nat) : Cmd unit :=
  do t <- deref l; config_set (guild t) (to_dict t).

(** Modelled from the spec: what a pause does to a match (objects.py);
    AFK flagging is disabled on an ongoing match, other matches are left
    alone. *)
Definition disable_afk (m : Match) : Match :=
  if decide (status m = MOngoing) then set_afk_disabled true m else m.

(** Modelled from the spec: the aggregate once its loop is stopped. *)
Definition stopped (t : Tournament) : Tournament :=
  set_task None (set_matches (disable_afk <$> matches t) t).

(** Modelled from the spec: [Tournament.stop_loop_task] (objects.py)
    stops the scheduled cadence and keeps the aggregate; every ongoing
    match has AFK flagging disabled, recorded as a per-match flag. The
    commands call it without [await], unlike the accessors of the saved
    data, so it does not write to disk. *)
Definition stop_loop_task (l : nat) : Cmd unit := modify l stopped.

(** Modelled from the spec: [Tournament.start_loop_task] (objects.py)
    schedules the loop again. *)
Definition start_loop_task (l : nat) : Cmd unit :=
  modify l (set_task (Some LoopTask)).

(** Modelled from the spec: [_restore_tournament] (the cog's main module)
    loads the saved data of the guild, rebuilds the aggregate from it,
    which may fail while deserializing or syncing, and starts the loop
    of an aggregate whose phase is ongoing. The caller registers it. *)
Definition _restore_tournament (g : Z) : Cmd nat :=
  emit (CallRestore g);;
  do saved <- config_get g;
  do r <- call (λ k, from_saved_data env k g saved);
  match r with
  | inl e => raise e
  | inr t =>
      do l <- alloc (set_task None t);
      (if decide (phase t = "ongoing") then start_loop_task l else ret tt);;
      ret l
  end.

(** ** The phase gate *)

Inductive CheckFailure :=
| NoActiveTournament
| PhaseMismatch (current : string) (allowed : list string).

(** Modelled from the spec: [utils.only_phase] with its allowed phases,
    the check that decorates the commands. No live aggregate for the
    guild fails with [NoActiveTournament]; a phase outside the declared
    set fails with [PhaseMismatch]; no declared phase means any phase. *)
Definition only_phase (allowed : list string) (g : Z) (w : World)
    : option CheckFailure :=
  match tournaments w !! g with
  | None => Some NoActiveTournament
  | Some l =>
      match heap w !! l with
      | None => Some NoActiveTournament
      | Some t =>
          if bool_decide (allowed = []) || bool_decide (phase t ∈ allowed)
          then None
          else Some (PhaseMismatch (phase t) allowed)
      end
  end.

(** ** The loop body *)

(** Modelled from the spec: how the failure of a stage's external call
    is treated. A transient failure skips the stage, a fatal one aborts
    the tick. *)
Definition stage {A} (r : StageResult A) (k : A → Cmd unit) : Cmd unit :=
  match r with
  | StageOk a => k a
  | Transient => ret tt
  | Fatal e => raise e
  end.

(** Modelled from the spec: stage 1 on the participants, from the
    additions and removals the bracket reports. *)
Definition sync_participants (added removed : list Z) (ps : list Participant)
    : list Participant :=
  filter (λ p, member p ∉ removed) ps
  ++ ((λ m, mkParticipant m false)
        <$> filter (λ m, m ∉ (member <$> ps)) added).

(** Modelled from the spec: stage 2 on the matches, from the new
    pairings and the completed matches the bracket reports. *)
Definition finish_if (completed : list Z) (m : Match) : Match :=
  if decide (match_id m ∈ completed) then set_status MFinished m else m.

Definition as_pending (m : Match) : Match :=
  mkMatch (match_id m) (players m) None MPending false (last_activity m) false.

Definition sync_matches (new : list Match) (completed : list Z)
    (ms : list Match) : list Match :=
  (finish_if completed <$> ms)
  ++ (as_pending <$> filter (λ m, match_id m ∉ (match_id <$> ms)) new).

Definition update_match (l i : nat) (f : Match → Match) : Cmd unit :=
  modify l (λ t, set_matches (alter f i (matches t)) t).

(** Modelled from the spec: stage 3, launching the pending matches whose
    prerequisites hold; each gets a venue and becomes ongoing. *)
Definition launched (venue : Z) (time : Z) (m : Match) : Match :=
  mkMatch (match_id m) (players m) (Some venue) MOngoing (afk_disabled m)
    time (on_stream m).

Fixpoint launch_matches (l i : nat) (ms : list Match) : Cmd unit :=
  match ms with
  | [] => ret tt
  | m :: rest =>
      if bool_decide (status m = MPending) && prerequisites env m then
        emit (CallCreateVenue (match_id m));;
        do r <- call (λ k, create_venue env k m);
        match r with
        | StageOk v =>
            do w <- get_world;
            update_match l i (launched v (now w));;
            launch_matches l (S i) rest
        | Transient => ret tt
        | Fatal e => raise e
        end
      else launch_matches l (S i) rest
  end.

(** Modelled from the spec: stage 4 on one match; an ongoing match whose
    last activity is older than the threshold is flagged, unless AFK
    flagging is disabled for it. *)
Definition flag_afk (time : Z) (m : Match) : Match :=
  if bool_decide (status m = MOngoing)
     && bool_decide (afk_threshold env < time - last_activity m)%Z
     && negb (afk_disabled m)
  then set_status MFlaggedAfk m
  else m.

(** Modelled from the spec: stage 5, deleting the venues of the matches
    finished for longer than the grace period. *)
Fixpoint cleanup_channels (l i : nat) (ms : list Match) : Cmd unit :=
  match ms with
  | [] => ret tt
  | m :: rest =>
      do w <- get_world;
      match channel m with
      | Some c =>
          if bool_decide (status m = MFinished)
             && bool_decide (grace_period env < now w - last_activity m)%Z
          then
            emit (CallDeleteVenue c);;
            do r <- call (λ k, delete_venue env k c);
            match r with
            | StageOk _ =>
                update_match l i (set_channel None);;
                cleanup_channels l (S i) rest
            | Transient => ret tt
            | Fatal e => raise e
            end
          else cleanup_channels l (S i) rest
      | None => cleanup_channels l (S i) rest
      end
  end.

(** Modelled from the spec: stage 6 on the matches; the free stream
    slots go to the first ongoing matches that have none. *)
Fixpoint assign (free : nat) (ms : list Match) : list Match :=
  match ms with
  | [] => []
  | m :: rest =>
      match free with
      | O => m :: rest
      | S k =>
          if bool_decide (status m = MOngoing) && negb (on_stream m)
          then set_on_stream true m :: assign k rest
          else m :: assign free rest
      end
  end.

Definition streamed (ms : list Match) : nat :=
  length (filter (λ m, status m = MOngoing ∧ on_stream m = true) ms).

(** Modelled from the spec: stage 1, resync of the participants with
    the bracket. *)
Definition refresh_participants (l : nat) : Cmd unit :=
  do t <- deref l;
  emit (CallFetchParticipants (tournament_id t));;
  do r <- call (λ k, fetch_participants env k (tournament_id t));
  stage r (λ ar,
    modify l (λ t,
      set_participants (sync_participants ar.1 ar.2 (participants t)) t)).

(** Modelled from the spec: stage 2, resync of the list of matches with
    the bracket. *)
Definition refresh_matches (l : nat) : Cmd unit :=
  do t <- deref l;
  emit (CallFetchMatches (tournament_id t));;
  do r <- call (λ k, fetch_matches env k (tournament_id t));
  stage r (λ nc,
    modify l (λ t, set_matches (sync_matches nc.1 nc.2 (matches t)) t)).

(** Modelled from the spec: stage 4, AFK detection over all matches. *)
Definition check_afk (l : nat) : Cmd unit :=
  do w <- get_world;
  modify l (λ t, set_matches (flag_afk (now w) <$> matches t) t).

(** Modelled from the spec: stage 6, stream assignment within the
    configured capacity. *)
Definition assign_stream_slots (l : nat) : Cmd unit :=
  do r <- call (assign_streams env);
  stage r (λ _,
    modify l (λ t,
      set_matches
        (assign (stream_capacity env - streamed (matches t)) (matches t)) t)).

(** Modelled from the spec: the body of [Tournament.loop_task]
    (objects.py), the seven ordered stages of one tick. A stage whose
    external call fails transiently is skipped and the tick goes on; a
    fatal failure raises out of the body before anything is saved. *)
Definition loop_task (l : nat) : Cmd unit :=
  refresh_participants l;;
  refresh_matches l;;
  (do t <- deref l; launch_matches l 0 (matches t));;
  check_afk l;;
  (do t <- deref l; cleanup_channels l 0 (matches t));;
  assign_stream_slots l;;
  save l.

(** ** The commands of [tournamentfix] *)

(** [tfix reload] *)
Definition tournamentfix_reload (g : Z) : Cmd unit :=
  do tournament <- registry_get g;
  save tournament;;
  registry_del g;;
  try_except_else
    (do l <- _restore_tournament g; registry_set g l)
    (λ e, emit (LogError e);; send MsgReloadFailed)
    (λ _, send MsgReloaded).

(** [tfix restore] *)
Definition tournamentfix_restore (g : Z) : Cmd unit :=
  do w <- get_world;
  if bool_decide (is_Some (tournaments w !! g)) then
    send MsgAlreadySetup
  else
    do saved <- config_get g;
    (if truthy saved then ret tt else send MsgNothingOnDisk);;
    try_except_else
      (do l <- _restore_tournament g; registry_set g l)
      (λ e, emit (LogError e);; send MsgRestoreFailed)
      (λ _, send MsgRestored).

(** [tfix hardreset]; [answer] is the operator's reaction to the prompt:
    [None] when the wait times out, [Some false] for no, [Some true] for
    yes. *)
Definition tournamentfix_hardreset (answer : option bool) (g : Z) : Cmd unit :=
  send MsgHardresetPrompt;;
  match answer with
  | None => send MsgTimedOut
  | Some false => send MsgCancelled
  | Some true =>
      do tournament <- registry_get g;
      stop_loop_task tournament;;
      registry_del g;;
      config_set g SEmpty;;
      emit LogInfo;;
      send MsgHardresetDone
  end.

Fixpoint delete_channels (channels : list Z) (failed : nat) : Cmd nat :=
  match channels with
  | [] => ret failed
  | c :: rest =>
      emit (CallChannelDelete c);;
      do ok <- call (λ k, channel_delete env k c);
      delete_channels rest (if ok : bool then failed else S failed)
  end.

(** [tfix resetmatches] *)
Definition tournamentfix_resetmatches (try_delete : bool) (g : Z) : Cmd unit :=
  do tournament <- registry_get g;
  do t <- deref tournament;
  let channels := if try_delete then omap channel (matches t) else [] in
  modify tournament (set_matches []);;
  modify tournament (set_participants []);;
  save tournament;;
  if negb try_delete then send MsgMatchesReset
  else
    send MsgMatchesResetDeleting;;
    do failed <- delete_channels channels 0;
    send (MsgChannelsDeleted failed).

(** The loop of [resetparticipants]; [tournament.participant_role] is
    read at each call, and [remove_roles(None)] is an error of its own. *)
Fixpoint remove_participant_roles (tournament : nat) (ps : list Participant)
    (failed : nat) : Cmd nat :=
  match ps with
  | [] => ret failed
  | p :: rest =>
      do t <- deref tournament;
      emit (CallRemoveRoles (member p) (participant_role t));;
      match participant_role t with
      | None => raise (Exception "AttributeError")
      | Some role =>
          do ok <- call (λ k, remove_roles env k (member p) role);
          remove_participant_roles tournament rest
            (if ok : bool then failed else S failed)
      end
  end.

(** [tfix resetparticipants] *)
Definition tournamentfix_resetparticipants (try_remove : bool) (g : Z)
    : Cmd unit :=
  do tournament <- registry_get g;
  do t <- deref tournament;
  let ps :=
    if try_remove
    then match participant_role t with
         | Some _ => participants t
         | None => []
         end
    else [] in
  modify tournament (set_participants []);;
  save tournament;;
  if negb try_remove then send MsgParticipantsReset
  else
    send MsgParticipantsResetRemoving;;
    do failed <- remove_participant_roles tournament ps 0;
    send (MsgRolesRemoved failed).

(** [tfix refresh] *)
Definition tournamentfix_refresh (g : Z) : Cmd unit :=
  do tournament <- registry_get g;
  do t <- deref tournament;
  emit (CallShow (tournament_id t));;
  do r <- call (λ k, show env k (tournament_id t));
  match r with
  | inl e => raise e
  | inr d =>
      do n <- getitem d "name";
      modify tournament (set_name n);;
      do lim <- getitem d "limit";
      modify tournament (set_limit lim);;
      send MsgRefreshed
  end.

(** [tfix pausetask] *)
Definition tournamentfix_pausetask (g : Z) : Cmd unit :=
  do tournament <- registry_get g;
  do t <- deref tournament;
  match task t with
  | None => send MsgTaskNotActive
  | Some _ =>
      stop_loop_task tournament;;
      send MsgTaskStopped
  end.

(** [tfix resumetask] *)
Definition tournamentfix_resumetask (g : Z) : Cmd unit :=
  do tournament <- registry_get g;
  try_except_else
    (loop_task tournament)
    (λ e, emit (LogError e);; send MsgResumeFailed)
    (λ _, sleep 2;; start_loop_task tournament;; send MsgResumed).

(** [tfix runtaskonce] *)
Definition tournamentfix_runtaskonce (g : Z) : Cmd unit :=
  do tournament <- registry_get g;
  try_except_else
    (loop_task tournament)
    (λ e, emit (LogError e);; send MsgRunOnceFailed)
    (λ _, emit Tick).

(** ** Commands behind their decorator *)

Inductive Command :=
| Reload
| Restore
| Hardreset (answer : option bool)
| Resetmatches (try_delete : bool)
| Resetparticipants (try_remove : bool)
| Refresh
| Pausetask
| Resumetask
| Runtaskonce.

(** The phases given to [@only_phase(...)] on each command; [None] for
    [restore], which has no such decorator. *)
Definition decorator (c : Command) : option (list string) :=
  match c with
  | Reload => Some []
  | Restore => None
  | Hardreset _ => Some []
  | Resetmatches _ => Some ["ongoing"]
  | Resetparticipants _ => Some ["register"; "checkin"]
  | Refresh => Some []
  | Pausetask => Some ["ongoing"]
  | Resumetask => Some ["ongoing"]
  | Runtaskonce => Some ["ongoing"]
  end.

Definition callback (c : Command) : Z → Cmd unit :=
  match c with
  | Reload => tournamentfix_reload
  | Restore => tournamentfix_restore
  | Hardreset answer => tournamentfix_hardreset answer
  | Resetmatches try_delete => tournamentfix_resetmatches try_delete
  | Resetparticipants try_remove => tournamentfix_resetparticipants try_remove
  | Refresh => tournamentfix_refresh
  | Pausetask => tournamentfix_pausetask
  | Resumetask => tournamentfix_resumetask
  | Runtaskonce => tournamentfix_runtaskonce
  end.

Inductive Result :=
| Rejected (f : CheckFailure)
| Returned
| Raised (e : Exn).

Definition check (c : Command) (g : Z) (w : World) : option CheckFailure :=
  match decorator c with
  | Some allowed => only_phase allowed g w
  | None => None
  end.

(** Invoking a command: the checks run first, the callback only when
    they pass. *)
Definition result_of (x : Out unit) : Result * World * list Event :=
  match x with
  | (inl e, w', tr) => (Raised e, w', tr)
  | (inr _, w', tr) => (Returned, w', tr)
  end.

Definition invoke (c : Command) (g : Z) (w : World)
    : Result * World * list Event :=
  match check c g w with
  | Some f => (Rejected f, w, [])
  | None => result_of (callback c g w)
  end.

End Troubleshooting.

(** ** Notions used in the statements *)

(** The aggregate [_restore_tournament] hands back for saved data that
    deserializes to [t]: its loop runs exactly when its phase is ongoing. *)
Definition restored (t : Tournament) : Tournament :=
  if decide (phase t = "ongoing")
  then set_task (Some LoopTask) t
  else set_task None t.

(** Number of deletions that fail when the channels are deleted in
    order, the first one by call number [k]. *)
Fixpoint failures (env : Env) (k : nat) (channels : list Z) : nat :=
  match channels with
  | [] => 0
  | c :: rest =>
      (if channel_delete env k c then 0 else 1) + failures env (S k) rest
  end.


(** The aggregate after [resetmatches] emptied its two lists. *)
Definition emptied (t : Tournament) : Tournament :=
  set_participants [] (set_matches [] t).

(** [t'] is [t] up to its name and its limit of participants. *)
Definition same_but_name_and_limit (t t' : Tournament) : Prop :=
  guild t' = guild t
  ∧ tournament_id t' = tournament_id t
  ∧ phase t' = phase t
  ∧ participants t' = participants t
  ∧ matches t' = matches t
  ∧ participant_role t' = participant_role t
  ∧ timing t' = timing t
  ∧ task t' = task t.

(** An invariant of the world that a command keeps, whatever its
    outcome. *)
Definition preserves {A} (I : World → Prop) (c : Cmd A) : Prop :=
  ∀ w, I w → I (c w).1.2.

(** The registry is [R] and the object at [l] satisfies [P]. *)
Definition object_inv (R : gmap Z nat) (l : nat) (P : Tournament → Prop)
    (w : World) : Prop :=
  tournaments w = R ∧ ∃ t, heap w !! l = Some t ∧ P t.

(** The ways in which the loop body rewrites the list of matches. *)
Inductive tick_update (env : Env) : (list Match → list Match) → Prop :=
| tu_sync new completed : tick_update env (sync_matches new completed)
| tu_launch i v n : tick_update env (alter (launched v n) i)
| tu_flag n : tick_update env (fmap (flag_afk env n))
| tu_clean i : tick_update env (alter (set_channel None) i)
| tu_assign :
    tick_update env (λ ms, assign (stream_capacity env - streamed ms) ms).

(** A property of the aggregate that no stage of the loop body breaks. *)
Definition tick_stable (env : Env) (P : Tournament → Prop) : Prop :=
  (∀ ps t, P t → P (set_participants ps t))
  ∧ (∀ G t, tick_update env G → P t → P (set_matches (G (matches t)) t)).





(** Every registered guild has its object, and the object knows the
    guild it is registered for. *)
Definition registry_wf (w : World) : Prop :=
  ∀ g l, tournaments w !! g = Some l →
         ∃ t, heap w !! l = Some t ∧ guild t = g.

(** What a command for guild [g], working on the object at [l], keeps of
    another guild [g']: its registration [r'], its saved data [s'] and
    its object [o']. *)
Definition iso_inv (g : Z) (l : nat) (g' : Z) (r' : option nat)
    (s' : option Saved) (o' : Tournament) (w : World) : Prop :=
  tournaments w !! g' = r'
  ∧ data w !! g' = s'
  ∧ (∀ l', r' = Some l' → heap w !! l' = Some o')
  ∧ ∃ t, heap w !! l = Some t ∧ guild t = g.

(** The saved data of a guild loads back as a tournament of that guild. *)
Definition loads_own_guild (env : Env) : Prop :=
  ∀ k g s t, from_saved_data env k g s = inr t → guild t = g.

(** A session: commands invoked one after the other, each for a guild. *)
Fixpoint run_commands (env : Env) (cs : list (Command * Z)) (w : World)
    : World :=
  match cs with
  | [] => w
  | (c, g) :: rest => run_commands env rest (invoke env c g w).1.2
  end.

(** What the operator sees as the answer of a command: a message or the
    tick reaction. *)
Definition is_answer (e : Event) : bool :=
  match e with
  | Send _ | Tick => true
  | _ => false
  end.

(** A run that returns has an answer as the last thing it did. *)
Definition answered {A} (x : Out A) : Prop :=
  match x with
  | (inr _, _, tr) => ∃ tr0 e, tr = tr0 ++ [e] ∧ is_answer e = true
  | (inl _, _, _) => True
  end.

Definition answers {A} (c : Cmd A) : Prop := ∀ w, answered (c w).

(** ** Sample worlds *)

(** Saved data that loads back as it was written. *)
Definition load_back (s : Saved) : Exn + Tournament :=
  match s with
  | SEmpty => inl (KeyError (VStr "tournament"))
  | SData d => inr d
  end.

(** A bracket that answers and a platform on which channel 13 cannot be
    deleted and member 2 cannot lose a role; [load] rebuilds a tournament
    from its saved data, and [fm] is what the bracket answers when asked
    for the matches. *)
Definition sample_env_with (load : Saved → Exn + Tournament)
    (fm : StageResult (list Match * list Z)) : Env :=
  mkEnv
    (λ _ c, bool_decide (c ≠ 13%Z))
    (λ _ m _, bool_decide (m ≠ 2%Z))
    (λ _ _, inr {[ "name" := VStr "Cup"; "limit" := VInt 32 ]})
    (λ _ _ s, load s)
    (λ _ _, StageOk ([], []))
    (λ _ _, fm)
    (λ _, true)
    (λ _ m, StageOk (match_id m + 100)%Z)
    (λ _ _, StageOk tt)
    (λ _, StageOk tt)
    10 60 1.

Definition sample_env : Env := sample_env_with load_back (StageOk ([], [])).

(** The bracket cannot be reached for the matches. *)
Definition broken_env : Env :=
  sample_env_with load_back (Fatal (Exception "bracket unreachable")).

(** Nothing saved can be loaded. *)
Definition corrupt_env : Env :=
  sample_env_with (λ _, inl (Exception "corrupt")) (StageOk ([], [])).

Definition sample_match (i : Z) (c : option Z) (s : MatchStatus) : Match :=
  mkMatch i [] c s false 0 false.

(** An ongoing tournament of guild 7 with five matches, three of them
    with a channel, and its loop running. *)
Definition sample_t : Tournament :=
  mkTournament 7 99 (VStr "Old") VNone "ongoing"
    [mkParticipant 1 true; mkParticipant 2 true]
    [sample_match 1 (Some 11%Z) MOngoing; sample_match 2 None MPending;
     sample_match 3 (Some 13%Z) MOngoing; sample_match 4 (Some 14%Z) MFinished;
     sample_match 5 None MPending]
    (Some 500%Z) (mkTiming (Some 10%Z) (Some 20%Z) None None) (Some LoopTask).

Definition sample_w : World :=
  mkWorld {[ 7%Z := 0 ]} [sample_t] {[ 7%Z := to_dict sample_t ]} 1000 0.

(** The same tournament with its loop stopped. *)
Definition paused_t : Tournament := set_task None sample_t.

Definition paused_w : World :=
  mkWorld {[ 7%Z := 0 ]} [paused_t] {[ 7%Z := to_dict sample_t ]} 1000 0.



(** A tournament of guild 7 in check-in, with a participant role. *)
Definition checkin_t : Tournament :=
  mkTournament 7 99 (VStr "Old") VNone "checkin"
    [mkParticipant 1 true; mkParticipant 2 true] [] (Some 500%Z)
    (mkTiming (Some 10%Z) (Some 20%Z) (Some 20%Z) (Some 30%Z)) None.

Definition checkin_w : World :=
  mkWorld {[ 7%Z := 0 ]} [checkin_t] ∅ 25 0.

(** The sample collaborators with another answer of the bracket to
    [show]. *)
Definition sample_env_show (answer : Exn + gmap string Value) : Env :=
  mkEnv
    (channel_delete sample_env) (remove_roles sample_env)
    (λ _ _, answer)
    (from_saved_data sample_env)
    (fetch_participants sample_env) (fetch_matches sample_env)
    (prerequisites sample_env) (create_venue sample_env)
    (delete_venue sample_env) (assign_streams sample_env)
    10 60 1.

(** The bracket cannot be asked for the tournament. *)
Definition offline_env : Env :=
  sample_env_show (inl (Exception "bracket unreachable")).


(** Saved data loads back for the guild it was saved for only. *)
Definition strict_env : Env :=
  mkEnv
    (channel_delete sample_env) (remove_roles sample_env) (show sample_env)
    (λ _ g s,
       match s with
       | SEmpty => inl (KeyError (VStr "tournament"))
       | SData d =>
           if decide (guild d = g) then inr d
           else inl (Exception "wrong guild")
       end)
    (fetch_participants sample_env) (fetch_matches sample_env)
    (prerequisites sample_env) (create_venue sample_env)
    (delete_venue sample_env) (assign_streams sample_env)
    10 60 1.

(** Nothing in memory, the sample tournament on disk. *)
Definition on_disk_w : World :=
  mkWorld ∅ [] {[ 7%Z := to_dict sample_t ]} 1000 0.

(** Guild 7 with the sample tournament and guild 8 with one of its own,
    in registration. *)
Definition other_t : Tournament :=
  mkTournament 8 42 (VStr "Other") (VInt 16) "register"
    [mkParticipant 5 false] [] None (mkTiming (Some 10%Z) None None None) None.

Definition two_guilds_w : World :=
  mkWorld {[ 7%Z := 0; 8%Z := 1 ]} [sample_t; other_t]
    {[ 7%Z := to_dict sample_t; 8%Z := to_dict other_t ]} 1000 0.

(** No tournament anywhere, nothing saved. *)
Definition blank_w : World := mkWorld ∅ [] ∅ 1000 0.

Section Properties.

Context (env : Env).

(** ** Running commands step by step *)

Lemma after_nil {A} (x : Out A) : after [] x = x.
Proof. by destruct x as [[r w] tr]. Qed.

Lemma after_after {A} (tr1 tr2 : list Event) (x : Out A) :
  after tr1 (after tr2 x) = after (tr1 ++ tr2) x.
Proof. destruct x as [[r w] tr]. unfold after. simpl. by rewrite app_assoc. Qed.

Lemma after_out {A} (tr1 tr2 : list Event) (r : Exn + A) (w : World) :
  after tr1 (r, w, tr2) = (r, w, tr1 ++ tr2).
Proof. reflexivity. Qed.

Lemma bind_ret {A B} (a : A) (k : A → Cmd B) (w : World) :
  bind (ret a) k w = k a w.
Proof. unfold bind, ret. apply after_nil. Qed.

Lemma bind_raise {A B} (e : Exn) (k : A → Cmd B) (w : World) :
  bind (raise e) k w = (inl e, w, []).
Proof. reflexivity. Qed.

Lemma bind_get_world {B} (k : World → Cmd B) (w : World) :
  bind get_world k w = k w w.
Proof. unfold bind, get_world. apply after_nil. Qed.

Lemma bind_put_world {B} (w' : World) (k : unit → Cmd B) (w : World) :
  bind (put_world w') k w = k tt w'.
Proof. unfold bind, put_world. apply after_nil. Qed.

Lemma bind_emit {B} (e : Event) (k : unit → Cmd B) (w : World) :
  bind (emit e) k w = after [e] (k tt w).
Proof. reflexivity. Qed.

Lemma bind_send {B} (m : Msg) (k : unit → Cmd B) (w : World) :
  bind (send m) k w = after [Send m] (k tt w).
Proof. reflexivity. Qed.

Lemma bind_bind {A B C} (c : Cmd A) (k1 : A → Cmd B) (k2 : B → Cmd C)
    (w : World) :
  bind (bind c k1) k2 w = bind c (λ a, bind (k1 a) k2) w.
Proof.
  unfold bind. destruct (c w) as [[[e|a] w1] tr1]; [done|].
  destruct (k1 a w1) as [[[e|b] w2] tr2]; simpl; [done|].
  by rewrite after_after.
Qed.

Lemma bind_after {A B} (c : Cmd A) (k : A → Cmd B) (w w1 : World)
    (a : A) (tr1 : list Event) :
  c w = (inr a, w1, tr1) → bind c k w = after tr1 (k a w1).
Proof. intros H. unfold bind. by rewrite H. Qed.

Lemma bind_fail {A B} (c : Cmd A) (k : A → Cmd B) (w w1 : World)
    (e : Exn) (tr1 : list Event) :
  c w = (inl e, w1, tr1) → bind c k w = (inl e, w1, tr1).
Proof. intros H. unfold bind. by rewrite H. Qed.

Lemma bind_registry_get {B} (g : Z) (k : nat → Cmd B) (w : World) (l : nat) :
  tournaments w !! g = Some l → bind (registry_get g) k w = k l w.
Proof.
  intros H. unfold registry_get. rewrite bind_bind, bind_get_world.
  rewrite H. apply bind_ret.
Qed.

Lemma bind_registry_set {B} (g : Z) (l : nat) (k : unit → Cmd B) (w : World) :
  bind (registry_set g l) k w
  = k tt (with_tournaments (<[g := l]> (tournaments w)) w).
Proof.
  unfold registry_set. by rewrite bind_bind, bind_get_world, bind_put_world.
Qed.

Lemma bind_registry_del {B} (g : Z) (k : unit → Cmd B) (w : World) (l : nat) :
  tournaments w !! g = Some l →
  bind (registry_del g) k w
  = k tt (with_tournaments (delete g (tournaments w)) w).
Proof.
  intros H. unfold registry_del. rewrite bind_bind, bind_get_world.
  rewrite H. apply bind_put_world.
Qed.

Lemma bind_deref {B} (l : nat) (k : Tournament → Cmd B) (w : World)
    (t : Tournament) :
  heap w !! l = Some t → bind (deref l) k w = k t w.
Proof.
  intros H. unfold deref. rewrite bind_bind, bind_get_world.
  rewrite H. apply bind_ret.
Qed.

Lemma bind_modify {B} (l : nat) (f : Tournament → Tournament)
    (k : unit → Cmd B) (w : World) :
  bind (modify l f) k w = k tt (with_heap (alter f l (heap w)) w).
Proof.
  unfold modify. by rewrite bind_bind, bind_get_world, bind_put_world.
Qed.

Lemma bind_config_get {B} (g : Z) (k : Saved → Cmd B) (w : World) :
  bind (config_get g) k w = k (saved w g) w.
Proof.
  unfold config_get. by rewrite bind_bind, bind_get_world, bind_ret.
Qed.

Lemma bind_config_set {B} (g : Z) (s : Saved) (k : unit → Cmd B) (w : World) :
  bind (config_set g s) k w
  = after [ConfigWrite g s] (k tt (with_data (<[g := s]> (data w)) w)).
Proof.
  unfold config_set.
  by rewrite bind_bind, bind_emit, bind_bind, bind_get_world, bind_put_world.
Qed.

Lemma bind_call {A B} (f : nat → A) (k : A → Cmd B) (w : World) :
  bind (call f) k w = k (f (calls w)) (with_calls (S (calls w)) w).
Proof.
  unfold call.
  by rewrite bind_bind, bind_get_world, bind_bind, bind_put_world, bind_ret.
Qed.

Lemma bind_sleep {B} (n : Z) (k : unit → Cmd B) (w : World) :
  bind (sleep n) k w = k tt (with_now (now w + n)%Z w).
Proof.
  unfold sleep. by rewrite bind_bind, bind_get_world, bind_put_world.
Qed.

Lemma bind_save {B} (l : nat) (k : unit → Cmd B) (w : World) (t : Tournament) :
  heap w !! l = Some t →
  bind (save l) k w
  = after [ConfigWrite (guild t) (to_dict t)]
      (k tt (with_data (<[guild t := to_dict t]> (data w)) w)).
Proof.
  intros H. unfold save. rewrite bind_bind, (bind_deref _ _ _ t) by done.
  apply bind_config_set.
Qed.

(** Every command is a [bind] at the top; this closes a run with the
    last command. *)
Lemma run_last {A} (c : Cmd A) (w : World) : c w = bind c ret w.
Proof.
  unfold bind, ret. destruct (c w) as [[[e|a] w1] tr1]; [done|].
  unfold after. simpl. by rewrite app_nil_r.
Qed.

Lemma bind_alloc {B} (t : Tournament) (k : nat → Cmd B) (w : World) :
  bind (alloc t) k w = k (length (heap w)) (with_heap (heap w ++ [t]) w).
Proof.
  unfold alloc.
  by rewrite bind_bind, bind_get_world, bind_bind, bind_put_world, bind_ret.
Qed.

Lemma run_try {A B} (body : Cmd A) (handler : Exn → Cmd B)
    (orelse : A → Cmd B) (w : World) :
  try_except_else body handler orelse w
  = match body w with
    | (inl e, w1, tr1) => after tr1 (handler e w1)
    | (inr a, w1, tr1) => after tr1 (orelse a w1)
    end.
Proof. reflexivity. Qed.

Lemma run_restore_tournament (g : Z) (w : World) :
  _restore_tournament env g w
  = match from_saved_data env (calls w) g (saved w g) with
    | inl e => (inl e, with_calls (S (calls w)) w, [CallRestore g])
    | inr t =>
        (inr (length (heap w)),
         with_heap (heap w ++ [restored t]) (with_calls (S (calls w)) w),
         [CallRestore g])
    end.
Proof.
  unfold _restore_tournament.
  rewrite bind_emit, bind_config_get, bind_call.
  destruct (from_saved_data env (calls w) g (saved w g)) as [e|t]; [done|].
  rewrite bind_alloc. unfold restored, start_loop_task.
  destruct (decide (phase t = "ongoing")).
  - rewrite bind_modify. unfold ret, after. simpl.
    replace (length (heap w)) with (length (heap w) + 0)%nat at 2 by lia.
    by rewrite alter_app_r.
  - by rewrite bind_ret.
Qed.

(** The [try] block shared by reload and restore. *)
Lemma run_restore_and_register (g : Z) (w : World) :
  bind (_restore_tournament env g) (λ l, registry_set g l) w
  = match from_saved_data env (calls w) g (saved w g) with
    | inl e => (inl e, with_calls (S (calls w)) w, [CallRestore g])
    | inr t =>
        (inr tt,
         mkWorld (<[g := length (heap w)]> (tournaments w))
           (heap w ++ [restored t]) (data w) (now w) (S (calls w)),
         [CallRestore g])
    end.
Proof.
  unfold bind at 1. rewrite run_restore_tournament.
  by destruct (from_saved_data env (calls w) g (saved w g)) as [e|t].
Qed.

Lemma invoke_callback (c : Command) (g : Z) (w : World) :
  check c g w = None → invoke env c g w = result_of (callback env c g w).
Proof. intros H. unfold invoke. by rewrite H. Qed.

(** C8. A restore for a guild that already has a live tournament is
    turned down with the already-setup message: nothing is loaded or
    registered, and the registry, the objects and the saved data are left
    exactly as they were, so the guild still has its one aggregate. *)
Theorem restore_rejected_when_registered (g : Z) (w : World) (l : nat) :
  tournaments w !! g = Some l →
  invoke env Restore g w = (Returned, w, [Send MsgAlreadySetup]).
Proof.
  intros Hreg. rewrite invoke_callback by done.
  cbn [callback]. unfold tournamentfix_restore.
  rewrite bind_get_world, bool_decide_eq_true_2; [done|]. by rewrite Hreg.
Qed.

Lemma result_of_after (tr : list Event) (x : Out unit) :
  result_of (after tr x)
  = match result_of x with (r, w, tr') => (r, w, tr ++ tr') end.
Proof. by destruct x as [[[e|[]] w] tr']. Qed.

(** What restore does for a guild without a live tournament, whatever
    is saved for it. *)
Lemma run_restore_unregistered (g : Z) (w : World) :
  tournaments w !! g = None →
  invoke env Restore g w
  = match from_saved_data env (calls w) g (saved w g) with
    | inl e =>
        (Returned, with_calls (S (calls w)) w,
         (if truthy (saved w g) then [] else [Send MsgNothingOnDisk])
         ++ [CallRestore g; LogError e; Send MsgRestoreFailed])
    | inr t =>
        (Returned,
         mkWorld (<[g := length (heap w)]> (tournaments w))
           (heap w ++ [restored t]) (data w) (now w) (S (calls w)),
         (if truthy (saved w g) then [] else [Send MsgNothingOnDisk])
         ++ [CallRestore g; Send MsgRestored])
    end.
Proof.
  intros Hreg. rewrite invoke_callback by done.
  cbn [callback]. unfold tournamentfix_restore.
  rewrite bind_get_world, bool_decide_eq_false_2
    by (rewrite Hreg; by intros [? ?]).
  rewrite bind_config_get.
  destruct (truthy (saved w g));
    [rewrite bind_ret | rewrite bind_send, result_of_after];
    rewrite run_try, run_restore_and_register;
    by destruct (from_saved_data env (calls w) g (saved w g)).
Qed.

(** C1. With no live tournament and the empty marker on disk, restore
    says that nothing is saved and then goes on to call
    [_restore_tournament] all the same: it ends either with the
    restore-failed message or with an aggregate registered. *)
Theorem restore_empty_marker_goes_on (g : Z) (w : World) :
  tournaments w !! g = None →
  saved w g = SEmpty →
  ∃ w' tr,
    invoke env Restore g w
      = (Returned, w', Send MsgNothingOnDisk :: CallRestore g :: tr)
    ∧ match from_saved_data env (calls w) g SEmpty with
      | inl e =>
          tr = [LogError e; Send MsgRestoreFailed]
          ∧ tournaments w' !! g = None
      | inr t =>
          tr = [Send MsgRestored]
          ∧ tournaments w' !! g = Some (length (heap w))
          ∧ heap w' !! length (heap w) = Some (restored t)
      end.
Proof.
  intros Hreg Hsaved. rewrite run_restore_unregistered by done.
  rewrite Hsaved. cbn [truthy].
  destruct (from_saved_data env (calls w) g SEmpty) as [e|t]; simpl.
  - eexists _, _. split; [reflexivity|]. by split.
  - eexists _, _. split; [reflexivity|]. split; [done|]. simpl. split.
    + by rewrite lookup_insert_eq.
    + by rewrite lookup_app_r, Nat.sub_diag.
Qed.

Lemma only_phase_pass (allowed : list string) (g : Z) (w : World) (l : nat)
    (t : Tournament) :
  tournaments w !! g = Some l →
  heap w !! l = Some t →
  allowed = [] ∨ phase t ∈ allowed →
  only_phase allowed g w = None.
Proof.
  intros Hreg Hobj Hphase. unfold only_phase. rewrite Hreg, Hobj.
  destruct Hphase as [->|Hin]; [done|].
  by rewrite (bool_decide_eq_true_2 (phase t ∈ allowed)), orb_true_r.
Qed.

(** C3. A confirmed hardreset stops the loop of the aggregate, drops it
    from the registry and writes the empty marker, with nothing but
    messages and a log line on its trace. A restore right after it says
    that nothing is saved, and then calls [_restore_tournament] all the
    same instead of stopping there. *)
Theorem hardreset_then_restore (g : Z) (w : World) (l : nat) (t : Tournament) :
  tournaments w !! g = Some l →
  heap w !! l = Some t →
  let w1 := mkWorld (delete g (tournaments w)) (alter stopped l (heap w))
              (<[g := SEmpty]> (data w)) (now w) (calls w) in
  let tr1 := [Send MsgHardresetPrompt; ConfigWrite g SEmpty; LogInfo;
              Send MsgHardresetDone] in
  invoke env (Hardreset (Some true)) g w = (Returned, w1, tr1)
  ∧ Forall (λ e, is_external e = false) tr1
  ∧ tournaments w1 !! g = None
  ∧ saved w1 g = SEmpty
  ∧ (task <$> heap w1 !! l) = Some None
  ∧ ∃ w2 tr,
      invoke env Restore g w1
        = (Returned, w2, Send MsgNothingOnDisk :: CallRestore g :: tr).
Proof.
  intros Hreg Hobj w1 tr1.
  assert (Hnone : tournaments w1 !! g = None) by apply lookup_delete_eq.
  assert (Hsaved : saved w1 g = SEmpty).
  { unfold saved. simpl. by rewrite lookup_insert_eq. }
  split; [|split; [by repeat constructor|split; [done|split; [done|split]]]].
  - rewrite invoke_callback
      by (eapply only_phase_pass; [done..|by left]).
    cbn [callback]. unfold tournamentfix_hardreset.
    rewrite bind_send, (bind_registry_get _ _ _ l) by done.
    unfold stop_loop_task. rewrite bind_modify.
    rewrite (bind_registry_del _ _ _ l) by done.
    by rewrite bind_config_set, bind_emit.
  - simpl. by rewrite list_lookup_alter_eq, Hobj.
  - rewrite run_restore_unregistered, Hsaved by done. cbn [truthy].
    destruct (from_saved_data env (calls w1) g SEmpty); by eexists _, _.
Qed.

(** C2. Reload saves the aggregate, drops it from the registry and calls
    [_restore_tournament]; [stop_loop_task] is never called, so the
    dropped object is left as it was, its loop handle included. When the
    restore fails the guild ends up unregistered, with the snapshot on
    disk and the failure message sent. *)
Theorem reload_never_stops_the_loop (g : Z) (w : World) (l : nat)
    (t : Tournament) :
  tournaments w !! g = Some l →
  heap w !! l = Some t →
  guild t = g →
  ∃ w' tr,
    invoke env Reload g w
      = (Returned, w', ConfigWrite g (to_dict t) :: CallRestore g :: tr)
    ∧ heap w' !! l = Some t
    ∧ data w' = <[g := to_dict t]> (data w)
    ∧ match from_saved_data env (calls w) g (to_dict t) with
      | inl e =>
          tr = [LogError e; Send MsgReloadFailed]
          ∧ tournaments w' !! g = None
      | inr t' =>
          tr = [Send MsgReloaded]
          ∧ tournaments w' !! g = Some (length (heap w))
          ∧ heap w' !! length (heap w) = Some (restored t')
      end.
Proof.
  intros Hreg Hobj Hguild.
  rewrite invoke_callback by (eapply only_phase_pass; [done..|by left]).
  cbn [callback]. unfold tournamentfix_reload.
  rewrite (bind_registry_get _ _ _ l), (bind_save _ _ _ t) by done.
  rewrite (bind_registry_del _ _ _ l) by done.
  rewrite run_try, run_restore_and_register, Hguild.
  unfold saved. simpl. rewrite lookup_insert_eq. simpl.
  destruct (from_saved_data env (calls w) g (to_dict t)) as [e|t']; simpl.
  - eexists _, _. split; [reflexivity|]. simpl.
    split; [done|]. split; [done|]. split; [done|]. apply lookup_delete_eq.
  - eexists _, _. split; [reflexivity|]. simpl.
    split; [by apply lookup_app_l_Some|]. split; [done|]. split; [done|].
    split; [by rewrite lookup_insert_eq|].
    by rewrite lookup_app_r, Nat.sub_diag.
Qed.

(** C4. Every command that carries [only_phase] is turned down before
    its callback runs: with [NoActiveTournament] when the guild has no
    live tournament, with [PhaseMismatch] when the phase of the tournament
    is not one of the phases the command declares. A call turned down
    leaves the world as it was and has an empty trace. *)
Theorem gate_rejects_before_any_effect (c : Command) (g : Z) (w : World) :
  c ≠ Restore →
  (tournaments w !! g = None →
   invoke env c g w = (Rejected NoActiveTournament, w, []))
  ∧ (∀ l t allowed,
       tournaments w !! g = Some l →
       heap w !! l = Some t →
       decorator c = Some allowed →
       allowed ≠ [] →
       phase t ∉ allowed →
       invoke env c g w = (Rejected (PhaseMismatch (phase t) allowed), w, [])).
Proof.
  intros Hc. split.
  - intros Hreg. unfold invoke, check, only_phase.
    destruct c; try done; simpl; by rewrite Hreg.
  - intros l t allowed Hreg Hobj Hdec Hne Hphase.
    unfold invoke, check, only_phase. rewrite Hdec, Hreg, Hobj.
    rewrite (bool_decide_eq_false_2 (allowed = [])) by done.
    by rewrite (bool_decide_eq_false_2 (phase t ∈ allowed)) by done.
Qed.

Lemma with_calls_id (w : World) : with_calls (calls w) w = w.
Proof. by destruct w. Qed.

Lemma alter_as_insert {A} (f : A → A) (h : list A) (i : nat) (x : A) :
  h !! i = Some x → alter f i h = <[i := f x]> h.
Proof.
  intros H. rewrite list_insert_alter. apply list_alter_ext; [|done].
  intros y Hy. by simplify_eq.
Qed.

Lemma run_delete_channels (channels : list Z) (failed : nat) (w : World) :
  delete_channels env channels failed w
  = (inr (failed + failures env (calls w) channels)%nat,
     with_calls (length channels + calls w) w,
     CallChannelDelete <$> channels).
Proof.
  revert failed w. induction channels as [|c rest IH]; intros failed w.
  - simpl. unfold ret. by rewrite with_calls_id, Nat.add_0_r.
  - cbn [delete_channels]. rewrite bind_emit, bind_call, IH.
    unfold after, with_calls. simpl.
    replace (length rest + S (calls w))%nat
      with (S (length rest + calls w)) by lia.
    by destruct (channel_delete env (calls w) c);
      rewrite ?Nat.add_0_l, <- ?Nat.add_succ_comm.
Qed.




(** C9. Whatever its phase, a refresh leaves the registry, the saved data
    and every other object alone, and the aggregate itself is changed in
    its name and its limit only: participants, matches, phase and the
    registration and check-in times stay as they were. When the bracket
    answers with both entries, these are the new name and limit. *)
Theorem refresh_only_name_and_limit (g : Z) (w : World) (l : nat)
    (t : Tournament) :
  tournaments w !! g = Some l →
  heap w !! l = Some t →
  ∃ r w' tr t',
    invoke env Refresh g w = (r, w', tr)
    ∧ tournaments w' = tournaments w
    ∧ data w' = data w
    ∧ heap w' = <[l := t']> (heap w)
    ∧ same_but_name_and_limit t t'
    ∧ (∀ d n lim,
         show env (calls w) (tournament_id t) = inr d →
         d !! "name" = Some n →
         d !! "limit" = Some lim →
         r = Returned
         ∧ t' = set_limit lim (set_name n t)
         ∧ tr = [CallShow (tournament_id t); Send MsgRefreshed]).
Proof.
  intros Hreg Hobj.
  rewrite invoke_callback by (eapply only_phase_pass; [done..|by left]).
  cbn [callback]. unfold tournamentfix_refresh.
  rewrite (bind_registry_get _ _ _ l), (bind_deref _ _ _ t) by done.
  rewrite bind_emit, bind_call.
  destruct (show env (calls w) (tournament_id t)) as [e|d] eqn:Hshow.
  { exists (Raised e), (with_calls (S (calls w)) w),
      [CallShow (tournament_id t)], t.
    split_and!; try done. simpl. by rewrite list_insert_id. }
  unfold getitem at 1.
  destruct (d !! "name") as [n|] eqn:Hname.
  2:{ rewrite bind_raise. eexists _, _, _, t. split; [reflexivity|]. simpl.
      split_and!; try done.
      - by rewrite list_insert_id.
      - intros; simplify_eq. }
  rewrite bind_ret, bind_modify. unfold getitem.
  destruct (d !! "limit") as [lim|] eqn:Hlimit.
  2:{ rewrite bind_raise. eexists _, _, _, (set_name n t).
      split; [reflexivity|]. simpl.
      split_and!; try done.
      - by apply alter_as_insert.
      - intros; simplify_eq. }
  rewrite bind_ret, bind_modify.
  eexists _, _, _, (set_limit lim (set_name n t)).
  split; [reflexivity|]. simpl.
  split_and!; try done.
  - rewrite list_alter_alter_eq.
    by apply (alter_as_insert (set_limit lim ∘ set_name n)).
  - intros; by simplify_eq.
Qed.

(** ** Further properties of the commands *)

(** X1. A hardreset that is not confirmed, by a no or by the time
    running out, changes nothing. *)
Theorem hardreset_declined_changes_nothing (answer : option bool) (g : Z)
    (w : World) (l : nat) (t : Tournament) :
  tournaments w !! g = Some l →
  heap w !! l = Some t →
  answer ≠ Some true →
  invoke env (Hardreset answer) g w
  = (Returned, w,
     [Send MsgHardresetPrompt;
      Send (if answer is Some _ then MsgCancelled else MsgTimedOut)]).
Proof.
  intros Hreg Hobj Hanswer.
  rewrite invoke_callback by (eapply only_phase_pass; [done..|by left]).
  by destruct answer as [[]|].
Qed.

(** X2. Pausing a loop that is not running says so and changes
    nothing. *)
Theorem pausetask_inactive_changes_nothing (g : Z) (w : World) (l : nat)
    (t : Tournament) :
  tournaments w !! g = Some l →
  heap w !! l = Some t →
  phase t = "ongoing" →
  task t = None →
  invoke env Pausetask g w = (Returned, w, [Send MsgTaskNotActive]).
Proof.
  intros Hreg Hobj Hphase Htask.
  rewrite invoke_callback
    by (eapply only_phase_pass; [done..|right; rewrite Hphase; set_solver]).
  cbn [callback]. unfold tournamentfix_pausetask.
  rewrite (bind_registry_get _ _ _ l), (bind_deref _ _ _ t) by done.
  by rewrite Htask.
Qed.

(** X3. A reload whose restore fails leaves the guild unregistered with
    the snapshot just written on disk, and tells the operator. *)
Theorem reload_failed_restore (g : Z) (w : World) (l : nat) (t : Tournament)
    (e : Exn) :
  tournaments w !! g = Some l →
  heap w !! l = Some t →
  guild t = g →
  from_saved_data env (calls w) g (to_dict t) = inl e →
  ∃ w',
    invoke env Reload g w
    = (Returned, w',
       [ConfigWrite g (to_dict t); CallRestore g; LogError e;
        Send MsgReloadFailed])
    ∧ tournaments w' !! g = None
    ∧ saved w' g = to_dict t.
Proof.
  intros Hreg Hobj Hguild Hfail.
  rewrite invoke_callback by (eapply only_phase_pass; [done..|by left]).
  cbn [callback]. unfold tournamentfix_reload.
  rewrite (bind_registry_get _ _ _ l), (bind_save _ _ _ t) by done.
  rewrite (bind_registry_del _ _ _ l) by done.
  rewrite run_try, run_restore_and_register, Hguild.
  unfold saved. simpl. rewrite lookup_insert_eq. simpl. rewrite Hfail. simpl.
  eexists. split; [reflexivity|]. simpl.
  split; [apply lookup_delete_eq|by rewrite lookup_insert_eq].
Qed.




(** ** Invariants of the loop body *)

Lemma preserves_ret {A} (I : World → Prop) (a : A) : preserves I (ret a).
Proof. by intros w. Qed.

Lemma preserves_raise {A} (I : World → Prop) (e : Exn) :
  preserves I (@raise A e).
Proof. by intros w. Qed.

Lemma preserves_emit (I : World → Prop) (e : Event) : preserves I (emit e).
Proof. by intros w. Qed.

Lemma preserves_get_world (I : World → Prop) : preserves I get_world.
Proof. by intros w. Qed.

Lemma preserves_bind {A B} (I : World → Prop) (c : Cmd A) (k : A → Cmd B) :
  preserves I c → (∀ a, preserves I (k a)) → preserves I (bind c k).
Proof.
  intros Hc Hk w Hw. unfold bind. specialize (Hc w Hw).
  destruct (c w) as [[[e|a] w1] tr1]; [done|].
  specialize (Hk a w1 Hc). by destruct (k a w1) as [[r w2] tr2].
Qed.

Lemma preserves_try {A B} (I : World → Prop) (body : Cmd A)
    (handler : Exn → Cmd B) (orelse : A → Cmd B) :
  preserves I body →
  (∀ e, preserves I (handler e)) →
  (∀ a, preserves I (orelse a)) →
  preserves I (try_except_else body handler orelse).
Proof.
  intros Hb Hh Ho w Hw. unfold try_except_else. specialize (Hb w Hw).
  destruct (body w) as [[[e|a] w1] tr1].
  - specialize (Hh e w1 Hb). by destruct (handler e w1) as [[r w2] tr2].
  - specialize (Ho a w1 Hb). by destruct (orelse a w1) as [[r w2] tr2].
Qed.

Section ObjectInvariant.

Context (R : gmap Z nat) (l : nat) (P : Tournament → Prop).
Hypothesis P_stable : tick_stable env P.

Lemma inv_deref (l' : nat) : preserves (object_inv R l P) (deref l').
Proof.
  intros w Hw. unfold deref. rewrite bind_get_world.
  by destruct (heap w !! l').
Qed.

Lemma inv_call {A} (f : nat → A) : preserves (object_inv R l P) (call f).
Proof. intros w Hw. unfold call. by rewrite bind_get_world, bind_put_world. Qed.

Lemma inv_config_set (g : Z) (s : Saved) :
  preserves (object_inv R l P) (config_set g s).
Proof.
  intros w Hw. unfold config_set. by rewrite bind_emit, bind_get_world.
Qed.

Lemma inv_modify (l' : nat) (F : Tournament → Tournament) :
  (∀ t, P t → P (F t)) → preserves (object_inv R l P) (modify l' F).
Proof.
  intros HF w [HR (t & Hobj & Ht)]. unfold modify. rewrite bind_get_world.
  split; [done|]. simpl. destruct (decide (l' = l)) as [->|Hne].
  - exists (F t). rewrite list_lookup_alter_eq, Hobj. eauto.
  - exists t. by rewrite list_lookup_alter_ne.
Qed.

Lemma inv_set_matches (l' : nat) (G : list Match → list Match) :
  tick_update env G →
  preserves (object_inv R l P) (modify l' (λ t, set_matches (G (matches t)) t)).
Proof. intros HG. apply inv_modify. intros t. by apply P_stable. Qed.

Lemma inv_update_match (l' i : nat) (f : Match → Match) :
  tick_update env (alter f i) →
  preserves (object_inv R l P) (update_match l' i f).
Proof. intros Hf. by apply inv_set_matches. Qed.

Lemma inv_save (l' : nat) : preserves (object_inv R l P) (save l').
Proof.
  apply preserves_bind; [apply inv_deref|]. intros t. apply inv_config_set.
Qed.

Lemma inv_refresh_participants (l' : nat) :
  preserves (object_inv R l P) (refresh_participants env l').
Proof.
  apply preserves_bind; [apply inv_deref|]. intros t.
  apply preserves_bind; [apply preserves_emit|]. intros _.
  apply preserves_bind; [apply inv_call|]. intros [ar| |e];
    [|apply preserves_ret|apply preserves_raise].
  apply inv_modify. intros t'. apply P_stable.
Qed.

Lemma inv_refresh_matches (l' : nat) :
  preserves (object_inv R l P) (refresh_matches env l').
Proof.
  apply preserves_bind; [apply inv_deref|]. intros t.
  apply preserves_bind; [apply preserves_emit|]. intros _.
  apply preserves_bind; [apply inv_call|]. intros [nc| |e];
    [|apply preserves_ret|apply preserves_raise].
  apply inv_set_matches. constructor.
Qed.

Lemma inv_launch_matches (l' i : nat) (ms : list Match) :
  preserves (object_inv R l P) (launch_matches env l' i ms).
Proof.
  revert i. induction ms as [|m rest IH]; intros i; [apply preserves_ret|].
  cbn [launch_matches].
  destruct (bool_decide (status m = MPending) && prerequisites env m);
    [|apply IH].
  apply preserves_bind; [apply preserves_emit|]. intros _.
  apply preserves_bind; [apply inv_call|]. intros [v| |e];
    [|apply preserves_ret|apply preserves_raise].
  apply preserves_bind; [apply preserves_get_world|]. intros w.
  apply preserves_bind; [|intros _; apply IH].
  apply inv_update_match. constructor.
Qed.

Lemma inv_check_afk (l' : nat) :
  preserves (object_inv R l P) (check_afk env l').
Proof.
  apply preserves_bind; [apply preserves_get_world|]. intros w.
  apply (inv_set_matches l' (fmap (flag_afk env (now w)))). constructor.
Qed.

Lemma inv_cleanup_channels (l' i : nat) (ms : list Match) :
  preserves (object_inv R l P) (cleanup_channels env l' i ms).
Proof.
  revert i. induction ms as [|m rest IH]; intros i; [apply preserves_ret|].
  cbn [cleanup_channels].
  apply preserves_bind; [apply preserves_get_world|]. intros w.
  destruct (channel m) as [c|]; [|apply IH].
  destruct (bool_decide (status m = MFinished)
            && bool_decide (grace_period env < now w - last_activity m)%Z);
    [|apply IH].
  apply preserves_bind; [apply preserves_emit|]. intros _.
  apply preserves_bind; [apply inv_call|]. intros [v| |e];
    [|apply preserves_ret|apply preserves_raise].
  apply preserves_bind; [|intros _; apply IH].
  apply inv_update_match. constructor.
Qed.

Lemma inv_assign_stream_slots (l' : nat) :
  preserves (object_inv R l P) (assign_stream_slots env l').
Proof.
  apply preserves_bind; [apply inv_call|]. intros [v| |e];
    [|apply preserves_ret|apply preserves_raise].
  apply (inv_set_matches l'
           (λ ms, assign (stream_capacity env - streamed ms) ms)).
  constructor.
Qed.

Lemma inv_loop_task (l' : nat) :
  preserves (object_inv R l P) (loop_task env l').
Proof.
  unfold loop_task.
  apply preserves_bind; [apply inv_refresh_participants|]. intros _.
  apply preserves_bind; [apply inv_refresh_matches|]. intros _.
  apply preserves_bind.
  { apply preserves_bind; [apply inv_deref|]. intros t.
    apply inv_launch_matches. }
  intros _.
  apply preserves_bind; [apply inv_check_afk|]. intros _.
  apply preserves_bind.
  { apply preserves_bind; [apply inv_deref|]. intros t.
    apply inv_cleanup_channels. }
  intros _.
  apply preserves_bind; [apply inv_assign_stream_slots|]. intros _.
  apply inv_save.
Qed.

Lemma inv_registry_get (g : Z) :
  preserves (object_inv R l P) (registry_get g).
Proof.
  intros w Hw. unfold registry_get. rewrite bind_get_world.
  by destruct (tournaments w !! g).
Qed.

Lemma inv_sleep (n : Z) : preserves (object_inv R l P) (sleep n).
Proof. intros w Hw. unfold sleep. by rewrite bind_get_world. Qed.




End ObjectInvariant.

Lemma task_phase_stable (k : option Task) (ph : string) :
  tick_stable env (λ t, task t = k ∧ phase t = ph).
Proof. by split. Qed.








(** C5. On an ongoing tournament whose loop is stopped, [resumetask] runs
    the loop body once first. When that run raises, the failure is logged
    and reported, the loop is not started, and the tournament is still
    registered, stopped and ongoing. The loop is started, and the resume
    reported as done, only when that run went through. *)
Theorem resume_after_dry_run_only (g : Z) (w : World) (l : nat)
    (t : Tournament) :
  tournaments w !! g = Some l →
  heap w !! l = Some t →
  phase t = "ongoing" →
  task t = None →
  match loop_task env l w with
  | (inl e, w1, tr1) =>
      invoke env Resumetask g w
        = (Returned, w1, tr1 ++ [LogError e; Send MsgResumeFailed])
      ∧ tournaments w1 !! g = Some l
      ∧ ∃ t1, heap w1 !! l = Some t1 ∧ task t1 = None ∧ phase t1 = "ongoing"
  | (inr _, w1, tr1) =>
      ∃ w2,
        invoke env Resumetask g w = (Returned, w2, tr1 ++ [Send MsgResumed])
        ∧ tournaments w2 !! g = Some l
        ∧ ∃ t2, heap w2 !! l = Some t2
                ∧ task t2 = Some LoopTask ∧ phase t2 = "ongoing"
  end.
Proof.
  intros Hreg Hobj Hphase Htask.
  rewrite invoke_callback
    by (eapply only_phase_pass; [done..|right; rewrite Hphase; set_solver]).
  cbn [callback]. unfold tournamentfix_resumetask.
  rewrite (bind_registry_get _ _ _ l), run_try by done.
  assert (Hinv : object_inv (tournaments w) l
                   (λ t, task t = None ∧ phase t = "ongoing")
                   (loop_task env l w).1.2).
  { apply inv_loop_task; [apply task_phase_stable|]. split; eauto. }
  destruct (loop_task env l w) as [[[e|[]] w1] tr1];
    destruct Hinv as [HR (t1 & Hobj1 & Htask1 & Hphase1)];
    simpl in HR, Hobj1.
  - rewrite bind_emit. unfold send, emit, after. simpl.
    split; [done|]. rewrite HR. eauto.
  - rewrite bind_sleep. unfold start_loop_task. rewrite bind_modify.
    unfold send, emit, after. simpl. eexists. split; [reflexivity|]. simpl.
    split; [by rewrite HR|]. exists (set_task (Some LoopTask) t1).
    by rewrite list_lookup_alter_eq, Hobj1.
Qed.


(** ** More properties of the commands *)

(** What [resetmatches] does, with or without channel deletion. *)
Lemma run_resetmatches (try_delete : bool) (g : Z) (w : World) (l : nat)
    (t : Tournament) :
  tournaments w !! g = Some l →
  heap w !! l = Some t →
  phase t = "ongoing" →
  let channels := if try_delete then omap channel (matches t) else [] in
  invoke env (Resetmatches try_delete) g w
  = (Returned,
     mkWorld (tournaments w) (<[l := emptied t]> (heap w))
       (<[guild t := to_dict (emptied t)]> (data w)) (now w)
       (length channels + calls w),
     ConfigWrite (guild t) (to_dict (emptied t))
     :: (if try_delete
         then Send MsgMatchesResetDeleting
              :: (CallChannelDelete <$> channels)
              ++ [Send (MsgChannelsDeleted
                          (failures env (calls w) channels))]
         else [Send MsgMatchesReset])).
Proof.
  intros Hreg Hobj Hphase channels.
  rewrite invoke_callback
    by (eapply only_phase_pass; [done..|right; rewrite Hphase; set_solver]).
  cbn [callback]. unfold tournamentfix_resetmatches.
  rewrite (bind_registry_get _ _ _ l), (bind_deref _ _ _ t) by done.
  rewrite !bind_modify.
  rewrite (bind_save _ _ _ (emptied t))
    by (simpl; by rewrite !list_lookup_alter_eq, Hobj).
  destruct try_delete; cbn [negb].
  - rewrite bind_send. unfold bind at 1.
    rewrite run_delete_channels. unfold send, emit, after. simpl.
    by rewrite list_alter_alter_eq, (alter_as_insert _ _ _ t) by done.
  - unfold send, emit, after. simpl.
    by rewrite list_alter_alter_eq, (alter_as_insert _ _ _ t) by done.
Qed.

(** X6. With no live tournament and a tournament saved on disk, restore
    does not say that nothing is saved. When [_restore_tournament] hands
    back an aggregate, it is registered as a new object, next to the
    objects that were there; when it raises, the guild stays
    unregistered. Either way the saved data is not written. *)
Theorem restore_loads_saved_tournament (g : Z) (w : World) (d : Tournament) :
  tournaments w !! g = None →
  saved w g = SData d →
  match from_saved_data env (calls w) g (SData d) with
  | inl e =>
      invoke env Restore g w
      = (Returned, with_calls (S (calls w)) w,
         [CallRestore g; LogError e; Send MsgRestoreFailed])
  | inr t =>
      invoke env Restore g w
      = (Returned,
         mkWorld (<[g := length (heap w)]> (tournaments w))
           (heap w ++ [restored t]) (data w) (now w) (S (calls w)),
         [CallRestore g; Send MsgRestored])
  end.
Proof.
  intros Hreg Hsaved. rewrite run_restore_unregistered, Hsaved by done.
  by destruct (from_saved_data env (calls w) g (SData d)).
Qed.

(** X7. A restore that went through is not repeated: the next restore
    for the guild is turned down and changes nothing. *)
Theorem restore_registers_once (g : Z) (w : World) (d t : Tournament) :
  tournaments w !! g = None →
  saved w g = SData d →
  from_saved_data env (calls w) g (SData d) = inr t →
  ∃ w1,
    invoke env Restore g w = (Returned, w1, [CallRestore g; Send MsgRestored])
    ∧ invoke env Restore g w1 = (Returned, w1, [Send MsgAlreadySetup]).
Proof.
  intros Hreg Hsaved Hload.
  rewrite run_restore_unregistered, Hsaved, Hload by done. cbn [truthy].
  eexists. split; [reflexivity|].
  rewrite invoke_callback by done. cbn [callback].
  unfold tournamentfix_restore.
  rewrite bind_get_world, bool_decide_eq_true_2; [done|].
  simpl. by rewrite lookup_insert_eq.
Qed.

(** X8. [runtaskonce] runs the loop body once and never raises: the
    failure of the run is logged and reported, its success is ticked.
    The world is the one the run left, so the loop is not scheduled by
    it: the loop handle is what it was. *)
Theorem runtaskonce_reports_outcome (g : Z) (w : World) (l : nat)
    (t : Tournament) :
  tournaments w !! g = Some l →
  heap w !! l = Some t →
  phase t = "ongoing" →
  match loop_task env l w with
  | (inl e, w1, tr1) =>
      invoke env Runtaskonce g w
      = (Returned, w1, tr1 ++ [LogError e; Send MsgRunOnceFailed])
  | (inr _, w1, tr1) =>
      invoke env Runtaskonce g w = (Returned, w1, tr1 ++ [Tick])
  end
  ∧ (task <$> heap (invoke env Runtaskonce g w).1.2 !! l) = Some (task t).
Proof.
  intros Hreg Hobj Hphase.
  rewrite invoke_callback
    by (eapply only_phase_pass; [done..|right; rewrite Hphase; set_solver]).
  cbn [callback]. unfold tournamentfix_runtaskonce.
  rewrite (bind_registry_get _ _ _ l), run_try by done.
  assert (Hinv : object_inv (tournaments w) l
                   (λ t', task t' = task t ∧ phase t' = "ongoing")
                   (loop_task env l w).1.2).
  { apply inv_loop_task; [apply task_phase_stable|]. split; eauto. }
  destruct (loop_task env l w) as [[[e|[]] w1] tr1];
    destruct Hinv as [_ (t1 & Hobj1 & Htask1 & _)]; simpl in Hobj1.
  - rewrite bind_emit. unfold send, emit, after. simpl.
    split; [done|]. by rewrite Hobj1, <- Htask1.
  - unfold emit, after. simpl. split; [done|]. by rewrite Hobj1, <- Htask1.
Qed.

(** X9. When the bracket cannot be asked, the error leaves [refresh]
    uncaught: no message is sent and nothing of the tournament, the
    registry or the saved data is changed. *)
Theorem refresh_show_error_propagates (g : Z) (w : World) (l : nat)
    (t : Tournament) (e : Exn) :
  tournaments w !! g = Some l →
  heap w !! l = Some t →
  show env (calls w) (tournament_id t) = inl e →
  invoke env Refresh g w
  = (Raised e, with_calls (S (calls w)) w, [CallShow (tournament_id t)]).
Proof.
  intros Hreg Hobj Hshow.
  rewrite invoke_callback by (eapply only_phase_pass; [done..|by left]).
  cbn [callback]. unfold tournamentfix_refresh.
  rewrite (bind_registry_get _ _ _ l), (bind_deref _ _ _ t) by done.
  by rewrite bind_emit, bind_call, Hshow.
Qed.


(** X11. [resetmatches] is idempotent: run again, with or without
    channel deletion, it finds no channel to delete, calls nothing on the
    platform and leaves the world as the first run left it. *)
Theorem resetmatches_twice (b b' : bool) (g : Z) (w : World) (l : nat)
    (t : Tournament) :
  tournaments w !! g = Some l →
  heap w !! l = Some t →
  phase t = "ongoing" →
  ∃ w1 tr1,
    invoke env (Resetmatches b) g w = (Returned, w1, tr1)
    ∧ invoke env (Resetmatches b') g w1
      = (Returned, w1,
         ConfigWrite (guild t) (to_dict (emptied t))
         :: (if b'
             then [Send MsgMatchesResetDeleting; Send (MsgChannelsDeleted 0)]
             else [Send MsgMatchesReset])).
Proof.
  intros Hreg Hobj Hphase.
  rewrite (run_resetmatches b g w l t) by done.
  eexists _, _. split; [reflexivity|].
  rewrite (run_resetmatches b' g _ l (emptied t)); [| done | | done].
  2:{ simpl. apply list_lookup_insert_eq. by eapply lookup_lt_Some. }
  simpl. rewrite list_insert_insert_eq, insert_insert_eq.
  by destruct b'.
Qed.

(** ** What the commands leave alone *)

Lemma preserves_apply {A} (I : World → Prop) (c : Cmd A) (w : World) :
  preserves I c → I w → I (c w).1.2.
Proof. intros Hc Hw. by apply Hc. Qed.

Lemma invoke_world (c : Command) (g : Z) (w : World) :
  check c g w = None → (invoke env c g w).1.2 = (callback env c g w).1.2.
Proof.
  intros H. rewrite invoke_callback by done.
  by destruct (callback env c g w) as [[[e|[]] w'] tr].
Qed.

(** A command that passed its check has a live tournament to work on. *)
Lemma check_pass_inv (c : Command) (g : Z) (w : World) :
  c ≠ Restore →
  check c g w = None →
  ∃ l t, tournaments w !! g = Some l ∧ heap w !! l = Some t.
Proof.
  intros Hc. unfold check, only_phase.
  destruct (decorator c) as [allowed|] eqn:Hdec; [|by destruct c].
  destruct (tournaments w !! g) as [l|] eqn:Hreg; [|done].
  destruct (heap w !! l) as [t|] eqn:Hobj; [|done]. intros _. by exists l, t.
Qed.

Lemma tick_stable_True : tick_stable env (λ _, True).
Proof. by split. Qed.

Section Registry.

Context (R : gmap Z nat) (l : nat).

Lemma reg_delete_channels (channels : list Z) (failed : nat) :
  preserves (object_inv R l (λ _, True)) (delete_channels env channels failed).
Proof.
  revert failed. induction channels as [|c rest IH]; intros failed;
    [apply preserves_ret|].
  cbn [delete_channels].
  apply preserves_bind; [apply preserves_emit|intros _].
  apply preserves_bind; [apply inv_call|intros ok]. apply IH.
Qed.

Lemma reg_remove_participant_roles (l' : nat) (ps : list Participant)
    (failed : nat) :
  preserves (object_inv R l (λ _, True))
    (remove_participant_roles env l' ps failed).
Proof.
  revert failed. induction ps as [|p rest IH]; intros failed;
    [apply preserves_ret|].
  cbn [remove_participant_roles].
  apply preserves_bind; [apply inv_deref|intros t].
  apply preserves_bind; [apply preserves_emit|intros _].
  destruct (participant_role t) as [role|]; [|apply preserves_raise].
  apply preserves_bind; [apply inv_call|intros ok]. apply IH.
Qed.

Lemma reg_callback (c : Command) (g : Z) :
  c ≠ Reload →
  c ≠ Restore →
  c ≠ Hardreset (Some true) →
  preserves (object_inv R l (λ _, True)) (callback env c g).
Proof.
  intros HReload HRestore HHardreset.
  destruct c as [| |answer|b|b| | | |]; try done; cbn [callback].
  - unfold tournamentfix_hardreset.
    apply preserves_bind; [apply preserves_emit|intros _].
    destruct answer as [[]|]; [done|apply preserves_emit..].
  - unfold tournamentfix_resetmatches.
    apply preserves_bind; [apply inv_registry_get|intros l'].
    apply preserves_bind; [apply inv_deref|intros t].
    apply preserves_bind; [by apply inv_modify|intros _].
    apply preserves_bind; [by apply inv_modify|intros _].
    apply preserves_bind; [apply inv_save|intros _].
    destruct b; cbn [negb]; [|apply preserves_emit].
    apply preserves_bind; [apply preserves_emit|intros _].
    apply preserves_bind; [apply reg_delete_channels|intros failed].
    apply preserves_emit.
  - unfold tournamentfix_resetparticipants.
    apply preserves_bind; [apply inv_registry_get|intros l'].
    apply preserves_bind; [apply inv_deref|intros t].
    apply preserves_bind; [by apply inv_modify|intros _].
    apply preserves_bind; [apply inv_save|intros _].
    destruct b; cbn [negb]; [|apply preserves_emit].
    apply preserves_bind; [apply preserves_emit|intros _].
    apply preserves_bind; [apply reg_remove_participant_roles|intros failed].
    apply preserves_emit.
  - unfold tournamentfix_refresh.
    apply preserves_bind; [apply inv_registry_get|intros l'].
    apply preserves_bind; [apply inv_deref|intros t].
    apply preserves_bind; [apply preserves_emit|intros _].
    apply preserves_bind; [apply inv_call|intros [e|d]];
      [apply preserves_raise|].
    apply preserves_bind.
    { unfold getitem. destruct (d !! "name");
        [apply preserves_ret|apply preserves_raise]. }
    intros n. apply preserves_bind; [by apply inv_modify|intros _].
    apply preserves_bind.
    { unfold getitem. destruct (d !! "limit");
        [apply preserves_ret|apply preserves_raise]. }
    intros lim. apply preserves_bind; [by apply inv_modify|intros _].
    apply preserves_emit.
  - unfold tournamentfix_pausetask.
    apply preserves_bind; [apply inv_registry_get|intros l'].
    apply preserves_bind; [apply inv_deref|intros t].
    destruct (task t); [|apply preserves_emit].
    apply preserves_bind; [by apply inv_modify|intros _].
    apply preserves_emit.
  - unfold tournamentfix_resumetask.
    apply preserves_bind; [apply inv_registry_get|intros l'].
    apply preserves_try;
      [apply inv_loop_task, tick_stable_True|intros e|intros _].
    + apply preserves_bind; [apply preserves_emit|intros _].
      apply preserves_emit.
    + apply preserves_bind; [apply inv_sleep|intros _].
      apply preserves_bind; [by apply inv_modify|intros _].
      apply preserves_emit.
  - unfold tournamentfix_runtaskonce.
    apply preserves_bind; [apply inv_registry_get|intros l'].
    apply preserves_try;
      [apply inv_loop_task, tick_stable_True|intros e|intros _].
    + apply preserves_bind; [apply preserves_emit|intros _].
      apply preserves_emit.
    + apply preserves_emit.
Qed.

End Registry.

(** X12. Only reload, restore and a confirmed hardreset ever change the
    registry: after any other command, accepted or turned down, every
    guild is registered to the object it was registered to, and no guild
    has been added or dropped. *)
Theorem registry_left_alone (c : Command) (g : Z) (w : World) :
  c ≠ Reload →
  c ≠ Restore →
  c ≠ Hardreset (Some true) →
  tournaments (invoke env c g w).1.2 = tournaments w.
Proof.
  intros HReload HRestore HHardreset.
  destruct (check c g w) as [f|] eqn:Hcheck.
  { unfold invoke. by rewrite Hcheck. }
  rewrite invoke_world by done.
  destruct (check_pass_inv c g w HRestore Hcheck) as (l & t & Hreg & Hobj).
  assert (Hinv : object_inv (tournaments w) l (λ _, True)
                   (callback env c g w).1.2).
  { apply preserves_apply; [by apply reg_callback|]. split; eauto. }
  by destruct Hinv as [-> _].
Qed.

Section Isolation.

Context (g : Z) (l : nat) (g' : Z) (r' : option nat) (s' : option Saved)
  (o' : Tournament).
Hypothesis other_guild : g ≠ g'.
Hypothesis other_object : ∀ l', r' = Some l' → l' ≠ l.

Lemma iso_deref (l0 : nat) :
  preserves (iso_inv g l g' r' s' o') (deref l0).
Proof.
  intros w Hw. unfold deref. rewrite bind_get_world.
  by destruct (heap w !! l0).
Qed.

Lemma iso_registry_get (g0 : Z) :
  preserves (iso_inv g l g' r' s' o') (registry_get g0).
Proof.
  intros w Hw. unfold registry_get. rewrite bind_get_world.
  by destruct (tournaments w !! g0).
Qed.

Lemma iso_call {A} (f : nat → A) :
  preserves (iso_inv g l g' r' s' o') (call f).
Proof. intros w Hw. unfold call. by rewrite bind_get_world, bind_put_world. Qed.

Lemma iso_sleep (n : Z) : preserves (iso_inv g l g' r' s' o') (sleep n).
Proof. intros w Hw. unfold sleep. by rewrite bind_get_world. Qed.

Lemma iso_getitem (d : gmap string Value) (key : string) :
  preserves (iso_inv g l g' r' s' o') (getitem d key).
Proof. intros w Hw. unfold getitem. by destruct (d !! key). Qed.

Lemma iso_modify (F : Tournament → Tournament) :
  (∀ t, guild (F t) = guild t) →
  preserves (iso_inv g l g' r' s' o') (modify l F).
Proof.
  intros HF w (Hr & Hs & Ho & t & Hobj & Hg). unfold modify.
  rewrite bind_get_world. split_and!; try done; simpl.
  - intros l' Hl'. rewrite list_lookup_alter_ne by (intros <-; by eapply other_object).
    by apply Ho.
  - exists (F t). rewrite list_lookup_alter_eq, Hobj. by rewrite HF.
Qed.

Lemma iso_set_matches (G : list Match → list Match) :
  preserves (iso_inv g l g' r' s' o')
    (modify l (λ t, set_matches (G (matches t)) t)).
Proof. by apply iso_modify. Qed.

Lemma iso_config_set (s : Saved) :
  preserves (iso_inv g l g' r' s' o') (config_set g s).
Proof.
  intros w (Hr & Hs & Ho & Hown). unfold config_set.
  rewrite bind_emit, bind_get_world. split_and!; try done; simpl.
  by rewrite lookup_insert_ne.
Qed.

Lemma iso_save : preserves (iso_inv g l g' r' s' o') (save l).
Proof.
  intros w Hw. pose proof Hw as (_ & _ & _ & t & Hobj & Hg).
  rewrite (run_last (save l)). unfold save.
  rewrite bind_bind, (bind_deref _ _ _ t), Hg, <- run_last by done.
  by apply iso_config_set.
Qed.

Lemma iso_registry_del :
  preserves (iso_inv g l g' r' s' o') (registry_del g).
Proof.
  intros w (Hr & Hs & Ho & Hown). unfold registry_del.
  rewrite bind_get_world.
  destruct (tournaments w !! g); [|done]. split_and!; try done; simpl.
  by rewrite lookup_delete_ne.
Qed.

Lemma iso_refresh_participants :
  preserves (iso_inv g l g' r' s' o') (refresh_participants env l).
Proof.
  apply preserves_bind; [apply iso_deref|intros t].
  apply preserves_bind; [apply preserves_emit|intros _].
  apply preserves_bind; [apply iso_call|].
  intros [ar| |e]; [|apply preserves_ret|apply preserves_raise].
  by apply iso_modify.
Qed.

Lemma iso_refresh_matches :
  preserves (iso_inv g l g' r' s' o') (refresh_matches env l).
Proof.
  apply preserves_bind; [apply iso_deref|intros t].
  apply preserves_bind; [apply preserves_emit|intros _].
  apply preserves_bind; [apply iso_call|].
  intros [nc| |e]; [|apply preserves_ret|apply preserves_raise].
  by apply iso_modify.
Qed.

Lemma iso_launch_matches (i : nat) (ms : list Match) :
  preserves (iso_inv g l g' r' s' o') (launch_matches env l i ms).
Proof.
  revert i. induction ms as [|m rest IH]; intros i; [apply preserves_ret|].
  cbn [launch_matches].
  destruct (bool_decide (status m = MPending) && prerequisites env m);
    [|apply IH].
  apply preserves_bind; [apply preserves_emit|intros _].
  apply preserves_bind; [apply iso_call|].
  intros [v| |e]; [|apply preserves_ret|apply preserves_raise].
  apply preserves_bind; [apply preserves_get_world|intros w].
  apply preserves_bind; [|intros _; apply IH].
  by apply iso_modify.
Qed.

Lemma iso_cleanup_channels (i : nat) (ms : list Match) :
  preserves (iso_inv g l g' r' s' o') (cleanup_channels env l i ms).
Proof.
  revert i. induction ms as [|m rest IH]; intros i; [apply preserves_ret|].
  cbn [cleanup_channels].
  apply preserves_bind; [apply preserves_get_world|intros w].
  destruct (channel m) as [c|]; [|apply IH].
  destruct (bool_decide (status m = MFinished)
            && bool_decide (grace_period env < now w - last_activity m)%Z);
    [|apply IH].
  apply preserves_bind; [apply preserves_emit|intros _].
  apply preserves_bind; [apply iso_call|].
  intros [v| |e]; [|apply preserves_ret|apply preserves_raise].
  apply preserves_bind; [|intros _; apply IH].
  by apply iso_modify.
Qed.

Lemma iso_loop_task : preserves (iso_inv g l g' r' s' o') (loop_task env l).
Proof.
  unfold loop_task.
  apply preserves_bind; [apply iso_refresh_participants|intros _].
  apply preserves_bind; [apply iso_refresh_matches|intros _].
  apply preserves_bind.
  { apply preserves_bind; [apply iso_deref|intros t].
    apply iso_launch_matches. }
  intros _. apply preserves_bind.
  { apply preserves_bind; [apply preserves_get_world|intros w].
    by apply iso_modify. }
  intros _. apply preserves_bind.
  { apply preserves_bind; [apply iso_deref|intros t].
    apply iso_cleanup_channels. }
  intros _. apply preserves_bind.
  { apply preserves_bind; [apply iso_call|].
    intros [v| |e]; [|apply preserves_ret|apply preserves_raise].
    by apply iso_modify. }
  intros _. apply iso_save.
Qed.

Lemma iso_delete_channels (channels : list Z) (failed : nat) :
  preserves (iso_inv g l g' r' s' o') (delete_channels env channels failed).
Proof.
  revert failed. induction channels as [|c rest IH]; intros failed;
    [apply preserves_ret|].
  cbn [delete_channels].
  apply preserves_bind; [apply preserves_emit|intros _].
  apply preserves_bind; [apply iso_call|intros ok]. apply IH.
Qed.

Lemma iso_remove_participant_roles (ps : list Participant) (failed : nat) :
  preserves (iso_inv g l g' r' s' o')
    (remove_participant_roles env l ps failed).
Proof.
  revert failed. induction ps as [|p rest IH]; intros failed;
    [apply preserves_ret|].
  cbn [remove_participant_roles].
  apply preserves_bind; [apply iso_deref|intros t].
  apply preserves_bind; [apply preserves_emit|intros _].
  destruct (participant_role t) as [role|]; [|apply preserves_raise].
  apply preserves_bind; [apply iso_call|intros ok]. apply IH.
Qed.

(** The [try] block of reload and restore: the new object goes to the
    end of the heap and only the entry of [g] is written. *)
Lemma iso_restore_and_register :
  preserves (iso_inv g l g' r' s' o')
    (bind (_restore_tournament env g) (λ l1, registry_set g l1)).
Proof.
  intros w (Hr & Hs & Ho & t & Hobj & Hg).
  rewrite run_restore_and_register.
  destruct (from_saved_data env (calls w) g (saved w g)) as [e|t1]; simpl.
  { split_and!; eauto. }
  split_and!; simpl; try done.
  - by rewrite lookup_insert_ne.
  - intros l' Hl'. by apply lookup_app_l_Some, Ho.
  - exists t. split; [by apply lookup_app_l_Some|done].
Qed.

(** Every command but restore, once it has its object. *)
Lemma iso_callback (c : Command) (w : World) :
  c ≠ Restore →
  tournaments w !! g = Some l →
  iso_inv g l g' r' s' o' w →
  iso_inv g l g' r' s' o' (callback env c g w).1.2.
Proof.
  intros Hc Hreg Hw.
  destruct c as [| |answer|b|b| | | |]; try done; cbn [callback].
  - rewrite (run_last (tournamentfix_reload env g)).
    unfold tournamentfix_reload.
    rewrite bind_bind, (bind_registry_get _ _ _ l), <- run_last by done.
    apply preserves_apply; [|done].
    apply preserves_bind; [apply iso_save|intros _].
    apply preserves_bind; [apply iso_registry_del|intros _].
    apply preserves_try; [apply iso_restore_and_register|intros e|intros _].
    + apply preserves_bind; [apply preserves_emit|intros _].
      apply preserves_emit.
    + apply preserves_emit.
  - unfold tournamentfix_hardreset. rewrite bind_send.
    destruct answer as [[]|]; [|by destruct Hw..].
    rewrite (run_last (bind (registry_get g) _)).
    rewrite bind_bind, (bind_registry_get _ _ _ l), <- run_last by done.
    assert (Hrest : iso_inv g l g' r' s' o'
      (bind (stop_loop_task l) (λ _,
         bind (registry_del g) (λ _,
           bind (config_set g SEmpty) (λ _,
             bind (emit LogInfo) (λ _, send MsgHardresetDone)))) w).1.2).
    { apply preserves_apply; [|done].
      apply preserves_bind; [by apply iso_modify|intros _].
      apply preserves_bind; [apply iso_registry_del|intros _].
      apply preserves_bind; [apply iso_config_set|intros _].
      apply preserves_bind; [apply preserves_emit|intros _].
      apply preserves_emit. }
    by destruct (bind (stop_loop_task l) _ w) as [[r1 w1] tr1].
  - rewrite (run_last (tournamentfix_resetmatches env b g)).
    unfold tournamentfix_resetmatches.
    rewrite bind_bind, (bind_registry_get _ _ _ l), <- run_last by done.
    apply preserves_apply; [|done].
    apply preserves_bind; [apply iso_deref|intros t].
    apply preserves_bind; [by apply iso_modify|intros _].
    apply preserves_bind; [by apply iso_modify|intros _].
    apply preserves_bind; [apply iso_save|intros _].
    destruct b; cbn [negb]; [|apply preserves_emit].
    apply preserves_bind; [apply preserves_emit|intros _].
    apply preserves_bind; [apply iso_delete_channels|intros failed].
    apply preserves_emit.
  - rewrite (run_last (tournamentfix_resetparticipants env b g)).
    unfold tournamentfix_resetparticipants.
    rewrite bind_bind, (bind_registry_get _ _ _ l), <- run_last by done.
    apply preserves_apply; [|done].
    apply preserves_bind; [apply iso_deref|intros t].
    apply preserves_bind; [by apply iso_modify|intros _].
    apply preserves_bind; [apply iso_save|intros _].
    destruct b; cbn [negb]; [|apply preserves_emit].
    apply preserves_bind; [apply preserves_emit|intros _].
    apply preserves_bind; [apply iso_remove_participant_roles|intros failed].
    apply preserves_emit.
  - rewrite (run_last (tournamentfix_refresh env g)).
    unfold tournamentfix_refresh.
    rewrite bind_bind, (bind_registry_get _ _ _ l), <- run_last by done.
    apply preserves_apply; [|done].
    apply preserves_bind; [apply iso_deref|intros t].
    apply preserves_bind; [apply preserves_emit|intros _].
    apply preserves_bind; [apply iso_call|intros [e|d]];
      [apply preserves_raise|].
    apply preserves_bind; [apply iso_getitem|intros n].
    apply preserves_bind; [by apply iso_modify|intros _].
    apply preserves_bind; [apply iso_getitem|intros lim].
    apply preserves_bind; [by apply iso_modify|intros _].
    apply preserves_emit.
  - rewrite (run_last (tournamentfix_pausetask g)).
    unfold tournamentfix_pausetask.
    rewrite bind_bind, (bind_registry_get _ _ _ l), <- run_last by done.
    apply preserves_apply; [|done].
    apply preserves_bind; [apply iso_deref|intros t].
    destruct (task t); [|apply preserves_emit].
    apply preserves_bind; [by apply iso_modify|intros _].
    apply preserves_emit.
  - rewrite (run_last (tournamentfix_resumetask env g)).
    unfold tournamentfix_resumetask.
    rewrite bind_bind, (bind_registry_get _ _ _ l), <- run_last by done.
    apply preserves_apply; [|done].
    apply preserves_try; [apply iso_loop_task|intros e|intros _].
    + apply preserves_bind; [apply preserves_emit|intros _].
      apply preserves_emit.
    + apply preserves_bind; [apply iso_sleep|intros _].
      apply preserves_bind; [by apply iso_modify|intros _].
      apply preserves_emit.
  - rewrite (run_last (tournamentfix_runtaskonce env g)).
    unfold tournamentfix_runtaskonce.
    rewrite bind_bind, (bind_registry_get _ _ _ l), <- run_last by done.
    apply preserves_apply; [|done].
    apply preserves_try; [apply iso_loop_task|intros e|intros _].
    + apply preserves_bind; [apply preserves_emit|intros _].
      apply preserves_emit.
    + apply preserves_emit.
Qed.

End Isolation.

(** One command for [g] and another guild [g']. *)
Lemma invoke_other_guild (c : Command) (g g' : Z) (w : World) :
  registry_wf w →
  g ≠ g' →
  tournaments (invoke env c g w).1.2 !! g' = tournaments w !! g'
  ∧ data (invoke env c g w).1.2 !! g' = data w !! g'
  ∧ ∀ l', tournaments w !! g' = Some l' →
          heap (invoke env c g w).1.2 !! l' = heap w !! l'.
Proof.
  intros Hwf Hne.
  assert (c = Restore ∨ c ≠ Restore) as [->|Hc]
    by (destruct c; (by left) || (by right)).
  { destruct (tournaments w !! g) as [l|] eqn:Hreg.
    - rewrite invoke_callback by done. cbn [callback].
      unfold tournamentfix_restore.
      rewrite bind_get_world, bool_decide_eq_true_2 by (by rewrite Hreg).
      done.
    - rewrite run_restore_unregistered by done.
      destruct (from_saved_data env (calls w) g (saved w g)) as [e|t]; simpl;
        [done|].
      split_and!; [by rewrite lookup_insert_ne|done|].
      intros l' Hl'. destruct (Hwf g' l' Hl') as (t' & Hobj' & _).
      rewrite Hobj'. by apply lookup_app_l_Some. }
  destruct (check c g w) as [f|] eqn:Hcheck.
  { unfold invoke. by rewrite Hcheck. }
  rewrite invoke_world by done.
  destruct (check_pass_inv c g w Hc Hcheck) as (l & t & Hreg & Hobj).
  destruct (Hwf g l Hreg) as (t0 & Hobj0 & Hguild).
  assert (Ho : ∃ o', ∀ l', tournaments w !! g' = Some l' →
                           heap w !! l' = Some o').
  { destruct (tournaments w !! g') as [l'|] eqn:Hreg'; [|by exists t].
    destruct (Hwf g' l' Hreg') as (t' & Hobj' & _).
    exists t'. intros ? [= <-]. done. }
  destruct Ho as [o' Ho].
  assert (Hother : ∀ l', tournaments w !! g' = Some l' → l' ≠ l).
  { intros l' Hreg' ->. destruct (Hwf g' l Hreg') as (t' & Hobj' & Hguild').
    rewrite Hobj0 in Hobj'. injection Hobj' as <-. congruence. }
  pose proof (iso_callback g l g' (tournaments w !! g') (data w !! g') o'
                Hne Hother c w Hc Hreg) as Hiso.
  destruct Hiso as (Hr & Hs & Hh & _).
  { split_and!; eauto. }
  split_and!; try done.
  intros l' Hl'. rewrite (Ho l' Hl'). by apply Hh.
Qed.

(** ** Well-formed registries *)

Lemma wf_deref (l0 : nat) : preserves registry_wf (deref l0).
Proof.
  intros w Hw. unfold deref. rewrite bind_get_world.
  by destruct (heap w !! l0).
Qed.

Lemma wf_registry_get (g0 : Z) : preserves registry_wf (registry_get g0).
Proof.
  intros w Hw. unfold registry_get. rewrite bind_get_world.
  by destruct (tournaments w !! g0).
Qed.

Lemma wf_call {A} (f : nat → A) : preserves registry_wf (call f).
Proof. intros w Hw. unfold call. by rewrite bind_get_world, bind_put_world. Qed.

Lemma wf_sleep (n : Z) : preserves registry_wf (sleep n).
Proof. intros w Hw. unfold sleep. by rewrite bind_get_world. Qed.

Lemma wf_getitem (d : gmap string Value) (key : string) :
  preserves registry_wf (getitem d key).
Proof. intros w Hw. unfold getitem. by destruct (d !! key). Qed.

Lemma wf_modify (l0 : nat) (F : Tournament → Tournament) :
  (∀ t, guild (F t) = guild t) → preserves registry_wf (modify l0 F).
Proof.
  intros HF w Hw. unfold modify. rewrite bind_get_world.
  intros g l Hreg. destruct (Hw g l Hreg) as (t & Hobj & Hg). simpl.
  destruct (decide (l0 = l)) as [->|Hne].
  - exists (F t). rewrite list_lookup_alter_eq, Hobj. by rewrite HF.
  - exists t. by rewrite list_lookup_alter_ne.
Qed.

Lemma wf_config_set (g : Z) (s : Saved) :
  preserves registry_wf (config_set g s).
Proof.
  intros w Hw. unfold config_set. by rewrite bind_emit, bind_get_world.
Qed.

Lemma wf_save (l0 : nat) : preserves registry_wf (save l0).
Proof.
  apply preserves_bind; [apply wf_deref|intros t]. apply wf_config_set.
Qed.

Lemma wf_registry_del (g : Z) : preserves registry_wf (registry_del g).
Proof.
  intros w Hw. unfold registry_del. rewrite bind_get_world.
  destruct (tournaments w !! g) eqn:Hg; [|done].
  intros g0 l0 Hreg. simpl in Hreg.
  apply lookup_delete_Some in Hreg as [_ Hreg]. by apply Hw.
Qed.

Lemma wf_launch_matches (l0 i : nat) (ms : list Match) :
  preserves registry_wf (launch_matches env l0 i ms).
Proof.
  revert i. induction ms as [|m rest IH]; intros i; [apply preserves_ret|].
  cbn [launch_matches].
  destruct (bool_decide (status m = MPending) && prerequisites env m);
    [|apply IH].
  apply preserves_bind; [apply preserves_emit|intros _].
  apply preserves_bind; [apply wf_call|].
  intros [v| |e]; [|apply preserves_ret|apply preserves_raise].
  apply preserves_bind; [apply preserves_get_world|intros w].
  apply preserves_bind; [|intros _; apply IH].
  by apply wf_modify.
Qed.

Lemma wf_cleanup_channels (l0 i : nat) (ms : list Match) :
  preserves registry_wf (cleanup_channels env l0 i ms).
Proof.
  revert i. induction ms as [|m rest IH]; intros i; [apply preserves_ret|].
  cbn [cleanup_channels].
  apply preserves_bind; [apply preserves_get_world|intros w].
  destruct (channel m) as [c|]; [|apply IH].
  destruct (bool_decide (status m = MFinished)
            && bool_decide (grace_period env < now w - last_activity m)%Z);
    [|apply IH].
  apply preserves_bind; [apply preserves_emit|intros _].
  apply preserves_bind; [apply wf_call|].
  intros [v| |e]; [|apply preserves_ret|apply preserves_raise].
  apply preserves_bind; [|intros _; apply IH].
  by apply wf_modify.
Qed.

Lemma wf_loop_task (l0 : nat) : preserves registry_wf (loop_task env l0).
Proof.
  unfold loop_task.
  apply preserves_bind.
  { apply preserves_bind; [apply wf_deref|intros t].
    apply preserves_bind; [apply preserves_emit|intros _].
    apply preserves_bind; [apply wf_call|].
    intros [ar| |e]; [|apply preserves_ret|apply preserves_raise].
    by apply wf_modify. }
  intros _. apply preserves_bind.
  { apply preserves_bind; [apply wf_deref|intros t].
    apply preserves_bind; [apply preserves_emit|intros _].
    apply preserves_bind; [apply wf_call|].
    intros [nc| |e]; [|apply preserves_ret|apply preserves_raise].
    by apply wf_modify. }
  intros _. apply preserves_bind.
  { apply preserves_bind; [apply wf_deref|intros t].
    apply wf_launch_matches. }
  intros _. apply preserves_bind.
  { apply preserves_bind; [apply preserves_get_world|intros w].
    by apply wf_modify. }
  intros _. apply preserves_bind.
  { apply preserves_bind; [apply wf_deref|intros t].
    apply wf_cleanup_channels. }
  intros _. apply preserves_bind.
  { apply preserves_bind; [apply wf_call|].
    intros [v| |e]; [|apply preserves_ret|apply preserves_raise].
    by apply wf_modify. }
  intros _. apply wf_save.
Qed.

Lemma wf_delete_channels (channels : list Z) (failed : nat) :
  preserves registry_wf (delete_channels env channels failed).
Proof.
  revert failed. induction channels as [|c rest IH]; intros failed;
    [apply preserves_ret|].
  cbn [delete_channels].
  apply preserves_bind; [apply preserves_emit|intros _].
  apply preserves_bind; [apply wf_call|intros ok]. apply IH.
Qed.

Lemma wf_remove_participant_roles (l0 : nat) (ps : list Participant)
    (failed : nat) :
  preserves registry_wf (remove_participant_roles env l0 ps failed).
Proof.
  revert failed. induction ps as [|p rest IH]; intros failed;
    [apply preserves_ret|].
  cbn [remove_participant_roles].
  apply preserves_bind; [apply wf_deref|intros t].
  apply preserves_bind; [apply preserves_emit|intros _].
  destruct (participant_role t) as [role|]; [|apply preserves_raise].
  apply preserves_bind; [apply wf_call|intros ok]. apply IH.
Qed.

Lemma guild_restored (t : Tournament) : guild (restored t) = guild t.
Proof. unfold restored. by destruct (decide (phase t = "ongoing")). Qed.

Lemma wf_restore_and_register (g : Z) :
  loads_own_guild env →
  preserves registry_wf
    (bind (_restore_tournament env g) (λ l1, registry_set g l1)).
Proof.
  intros Hload w Hw. rewrite run_restore_and_register.
  destruct (from_saved_data env (calls w) g (saved w g)) as [e|t] eqn:Ht;
    simpl; [done|].
  intros g0 l0 Hreg. simpl in *.
  destruct (decide (g = g0)) as [<-|Hne].
  - rewrite lookup_insert_eq in Hreg. injection Hreg as <-.
    exists (restored t). rewrite lookup_app_r, Nat.sub_diag by done.
    split; [done|]. rewrite guild_restored. by eapply Hload.
  - rewrite lookup_insert_ne in Hreg by done.
    destruct (Hw g0 l0 Hreg) as (t0 & Hobj & Hg).
    exists t0. split; [by apply lookup_app_l_Some|done].
Qed.

Lemma wf_callback (c : Command) (g : Z) :
  loads_own_guild env → preserves registry_wf (callback env c g).
Proof.
  intros Hload.
  destruct c as [| |answer|b|b| | | |]; cbn [callback].
  - unfold tournamentfix_reload.
    apply preserves_bind; [apply wf_registry_get|intros l0].
    apply preserves_bind; [apply wf_save|intros _].
    apply preserves_bind; [apply wf_registry_del|intros _].
    apply preserves_try;
      [by apply wf_restore_and_register|intros e|intros _].
    + apply preserves_bind; [apply preserves_emit|intros _].
      apply preserves_emit.
    + apply preserves_emit.
  - unfold tournamentfix_restore.
    apply preserves_bind; [apply preserves_get_world|intros w0].
    destruct (bool_decide (is_Some (tournaments w0 !! g)));
      [apply preserves_emit|].
    apply preserves_bind.
    { intros w Hw. unfold config_get. by rewrite bind_get_world. }
    intros sv. apply preserves_bind.
    { destruct (truthy sv); [apply preserves_ret|apply preserves_emit]. }
    intros _. apply preserves_try;
      [by apply wf_restore_and_register|intros e|intros _].
    + apply preserves_bind; [apply preserves_emit|intros _].
      apply preserves_emit.
    + apply preserves_emit.
  - unfold tournamentfix_hardreset.
    apply preserves_bind; [apply preserves_emit|intros _].
    destruct answer as [[]|]; [|apply preserves_emit..].
    apply preserves_bind; [apply wf_registry_get|intros l0].
    apply preserves_bind; [by apply wf_modify|intros _].
    apply preserves_bind; [apply wf_registry_del|intros _].
    apply preserves_bind; [apply wf_config_set|intros _].
    apply preserves_bind; [apply preserves_emit|intros _].
    apply preserves_emit.
  - unfold tournamentfix_resetmatches.
    apply preserves_bind; [apply wf_registry_get|intros l0].
    apply preserves_bind; [apply wf_deref|intros t].
    apply preserves_bind; [by apply wf_modify|intros _].
    apply preserves_bind; [by apply wf_modify|intros _].
    apply preserves_bind; [apply wf_save|intros _].
    destruct b; cbn [negb]; [|apply preserves_emit].
    apply preserves_bind; [apply preserves_emit|intros _].
    apply preserves_bind; [apply wf_delete_channels|intros failed].
    apply preserves_emit.
  - unfold tournamentfix_resetparticipants.
    apply preserves_bind; [apply wf_registry_get|intros l0].
    apply preserves_bind; [apply wf_deref|intros t].
    apply preserves_bind; [by apply wf_modify|intros _].
    apply preserves_bind; [apply wf_save|intros _].
    destruct b; cbn [negb]; [|apply preserves_emit].
    apply preserves_bind; [apply preserves_emit|intros _].
    apply preserves_bind; [apply wf_remove_participant_roles|intros failed].
    apply preserves_emit.
  - unfold tournamentfix_refresh.
    apply preserves_bind; [apply wf_registry_get|intros l0].
    apply preserves_bind; [apply wf_deref|intros t].
    apply preserves_bind; [apply preserves_emit|intros _].
    apply preserves_bind; [apply wf_call|intros [e|d]];
      [apply preserves_raise|].
    apply preserves_bind; [apply wf_getitem|intros n].
    apply preserves_bind; [by apply wf_modify|intros _].
    apply preserves_bind; [apply wf_getitem|intros lim].
    apply preserves_bind; [by apply wf_modify|intros _].
    apply preserves_emit.
  - unfold tournamentfix_pausetask.
    apply preserves_bind; [apply wf_registry_get|intros l0].
    apply preserves_bind; [apply wf_deref|intros t].
    destruct (task t); [|apply preserves_emit].
    apply preserves_bind; [by apply wf_modify|intros _].
    apply preserves_emit.
  - unfold tournamentfix_resumetask.
    apply preserves_bind; [apply wf_registry_get|intros l0].
    apply preserves_try; [apply wf_loop_task|intros e|intros _].
    + apply preserves_bind; [apply preserves_emit|intros _].
      apply preserves_emit.
    + apply preserves_bind; [apply wf_sleep|intros _].
      apply preserves_bind; [by apply wf_modify|intros _].
      apply preserves_emit.
  - unfold tournamentfix_runtaskonce.
    apply preserves_bind; [apply wf_registry_get|intros l0].
    apply preserves_try; [apply wf_loop_task|intros e|intros _].
    + apply preserves_bind; [apply preserves_emit|intros _].
      apply preserves_emit.
    + apply preserves_emit.
Qed.

Lemma invoke_wf (c : Command) (g : Z) (w : World) :
  loads_own_guild env → registry_wf w → registry_wf (invoke env c g w).1.2.
Proof.
  intros Hload Hw. destruct (check c g w) as [f|] eqn:Hcheck.
  { unfold invoke. by rewrite Hcheck. }
  rewrite invoke_world by done. by apply wf_callback.
Qed.

(** X13. Through any session, every registered guild has its own object
    and the object is a tournament of that guild, provided the saved data
    of a guild loads back as a tournament of that guild. *)
Theorem registry_wf_kept (cs : list (Command * Z)) (w : World) :
  loads_own_guild env →
  registry_wf w →
  registry_wf (run_commands env cs w).
Proof.
  intros Hload. revert w.
  induction cs as [|[c g] rest IH]; intros w Hw; [done|].
  simpl. by apply IH, invoke_wf.
Qed.

(** X14. The commands keep the guilds apart: through a session in which
    no command is for guild [g'], accepted or turned down as the commands
    may be, [g'] keeps the registration, the saved data and the object it
    had. *)
Theorem other_guilds_untouched (cs : list (Command * Z)) (g' : Z)
    (w : World) :
  loads_own_guild env →
  registry_wf w →
  Forall (λ cg, cg.2 ≠ g') cs →
  tournaments (run_commands env cs w) !! g' = tournaments w !! g'
  ∧ data (run_commands env cs w) !! g' = data w !! g'
  ∧ ∀ l', tournaments w !! g' = Some l' →
          heap (run_commands env cs w) !! l' = heap w !! l'.
Proof.
  intros Hload. revert w.
  induction cs as [|[c g] rest IH]; intros w Hw Hcs; [done|].
  apply Forall_cons in Hcs as [Hg Hrest]. simpl in Hg. simpl.
  destruct (invoke_other_guild c g g' w Hw Hg) as (Hr & Hd & Hh).
  destruct (IH _ (invoke_wf c g w Hload Hw) Hrest) as (Hr' & Hd' & Hh').
  split_and!.
  - by rewrite Hr'.
  - by rewrite Hd'.
  - intros l' Hl'. rewrite Hh' by (by rewrite Hr). by apply Hh.
Qed.

(** ** Invariants of the saved data *)

Section DataInvariant.

(** [J] looks at the saved data only, and a saved snapshot keeps it. *)
Context (J : World → Prop).
Hypothesis J_heap : ∀ w h, J w → J (with_heap h w).
Hypothesis J_registry : ∀ w r, J w → J (with_tournaments r w).
Hypothesis J_now : ∀ w n, J w → J (with_now n w).
Hypothesis J_calls : ∀ w k, J w → J (with_calls k w).
Hypothesis J_save :
  ∀ w g t, J w → J (with_data (<[g := to_dict t]> (data w)) w).

Lemma dj_deref (l0 : nat) : preserves J (deref l0).
Proof.
  intros w Hw. unfold deref. rewrite bind_get_world.
  by destruct (heap w !! l0).
Qed.

Lemma dj_registry_get (g0 : Z) : preserves J (registry_get g0).
Proof.
  intros w Hw. unfold registry_get. rewrite bind_get_world.
  by destruct (tournaments w !! g0).
Qed.

Lemma dj_registry_del (g0 : Z) : preserves J (registry_del g0).
Proof.
  intros w Hw. unfold registry_del. rewrite bind_get_world.
  destruct (tournaments w !! g0); [|done]. by apply J_registry.
Qed.

Lemma dj_call {A} (f : nat → A) : preserves J (call f).
Proof.
  intros w Hw. unfold call. rewrite bind_get_world, bind_put_world.
  by apply J_calls.
Qed.

Lemma dj_sleep (n : Z) : preserves J (sleep n).
Proof. intros w Hw. unfold sleep. rewrite bind_get_world. by apply J_now. Qed.

Lemma dj_getitem (d : gmap string Value) (key : string) :
  preserves J (getitem d key).
Proof. intros w Hw. unfold getitem. by destruct (d !! key). Qed.

Lemma dj_config_get (g0 : Z) : preserves J (config_get g0).
Proof. intros w Hw. unfold config_get. by rewrite bind_get_world. Qed.

Lemma dj_modify (l0 : nat) (F : Tournament → Tournament) :
  preserves J (modify l0 F).
Proof.
  intros w Hw. unfold modify. rewrite bind_get_world. by apply J_heap.
Qed.

Lemma dj_save (l0 : nat) : preserves J (save l0).
Proof.
  apply preserves_bind; [apply dj_deref|intros t].
  intros w Hw. unfold config_set. rewrite bind_emit, bind_get_world.
  by apply J_save.
Qed.

Lemma dj_launch_matches (l0 i : nat) (ms : list Match) :
  preserves J (launch_matches env l0 i ms).
Proof.
  revert i. induction ms as [|m rest IH]; intros i; [apply preserves_ret|].
  cbn [launch_matches].
  destruct (bool_decide (status m = MPending) && prerequisites env m);
    [|apply IH].
  apply preserves_bind; [apply preserves_emit|intros _].
  apply preserves_bind; [apply dj_call|].
  intros [v| |e]; [|apply preserves_ret|apply preserves_raise].
  apply preserves_bind; [apply preserves_get_world|intros w].
  apply preserves_bind; [apply dj_modify|intros _; apply IH].
Qed.

Lemma dj_cleanup_channels (l0 i : nat) (ms : list Match) :
  preserves J (cleanup_channels env l0 i ms).
Proof.
  revert i. induction ms as [|m rest IH]; intros i; [apply preserves_ret|].
  cbn [cleanup_channels].
  apply preserves_bind; [apply preserves_get_world|intros w].
  destruct (channel m) as [c|]; [|apply IH].
  destruct (bool_decide (status m = MFinished)
            && bool_decide (grace_period env < now w - last_activity m)%Z);
    [|apply IH].
  apply preserves_bind; [apply preserves_emit|intros _].
  apply preserves_bind; [apply dj_call|].
  intros [v| |e]; [|apply preserves_ret|apply preserves_raise].
  apply preserves_bind; [apply dj_modify|intros _; apply IH].
Qed.

Lemma dj_loop_task (l0 : nat) : preserves J (loop_task env l0).
Proof.
  unfold loop_task.
  apply preserves_bind.
  { apply preserves_bind; [apply dj_deref|intros t].
    apply preserves_bind; [apply preserves_emit|intros _].
    apply preserves_bind; [apply dj_call|].
    intros [ar| |e]; [apply dj_modify|apply preserves_ret|apply preserves_raise]. }
  intros _. apply preserves_bind.
  { apply preserves_bind; [apply dj_deref|intros t].
    apply preserves_bind; [apply preserves_emit|intros _].
    apply preserves_bind; [apply dj_call|].
    intros [nc| |e]; [apply dj_modify|apply preserves_ret|apply preserves_raise]. }
  intros _. apply preserves_bind.
  { apply preserves_bind; [apply dj_deref|intros t].
    apply dj_launch_matches. }
  intros _. apply preserves_bind.
  { apply preserves_bind; [apply preserves_get_world|intros w].
    apply dj_modify. }
  intros _. apply preserves_bind.
  { apply preserves_bind; [apply dj_deref|intros t].
    apply dj_cleanup_channels. }
  intros _. apply preserves_bind.
  { apply preserves_bind; [apply dj_call|].
    intros [v| |e]; [apply dj_modify|apply preserves_ret|apply preserves_raise]. }
  intros _. apply dj_save.
Qed.

Lemma dj_delete_channels (channels : list Z) (failed : nat) :
  preserves J (delete_channels env channels failed).
Proof.
  revert failed. induction channels as [|c rest IH]; intros failed;
    [apply preserves_ret|].
  cbn [delete_channels].
  apply preserves_bind; [apply preserves_emit|intros _].
  apply preserves_bind; [apply dj_call|intros ok]. apply IH.
Qed.

Lemma dj_remove_participant_roles (l0 : nat) (ps : list Participant)
    (failed : nat) :
  preserves J (remove_participant_roles env l0 ps failed).
Proof.
  revert failed. induction ps as [|p rest IH]; intros failed;
    [apply preserves_ret|].
  cbn [remove_participant_roles].
  apply preserves_bind; [apply dj_deref|intros t].
  apply preserves_bind; [apply preserves_emit|intros _].
  destruct (participant_role t) as [role|]; [|apply preserves_raise].
  apply preserves_bind; [apply dj_call|intros ok]. apply IH.
Qed.

Lemma dj_restore_and_register (g : Z) :
  preserves J (bind (_restore_tournament env g) (λ l1, registry_set g l1)).
Proof.
  intros w Hw. rewrite run_restore_and_register.
  destruct (from_saved_data env (calls w) g (saved w g)) as [e|t]; simpl.
  - by apply J_calls.
  - apply (J_registry (with_heap _ (with_calls (S (calls w)) w))).
    by apply J_heap, J_calls.
Qed.

Lemma dj_callback (c : Command) (g : Z) :
  c ≠ Hardreset (Some true) → preserves J (callback env c g).
Proof.
  intros Hc.
  destruct c as [| |answer|b|b| | | |]; cbn [callback].
  - unfold tournamentfix_reload.
    apply preserves_bind; [apply dj_registry_get|intros l0].
    apply preserves_bind; [apply dj_save|intros _].
    apply preserves_bind; [apply dj_registry_del|intros _].
    apply preserves_try; [apply dj_restore_and_register|intros e|intros _].
    + apply preserves_bind; [apply preserves_emit|intros _].
      apply preserves_emit.
    + apply preserves_emit.
  - unfold tournamentfix_restore.
    apply preserves_bind; [apply preserves_get_world|intros w0].
    destruct (bool_decide (is_Some (tournaments w0 !! g)));
      [apply preserves_emit|].
    apply preserves_bind; [apply dj_config_get|intros sv].
    apply preserves_bind.
    { destruct (truthy sv); [apply preserves_ret|apply preserves_emit]. }
    intros _.
    apply preserves_try; [apply dj_restore_and_register|intros e|intros _].
    + apply preserves_bind; [apply preserves_emit|intros _].
      apply preserves_emit.
    + apply preserves_emit.
  - unfold tournamentfix_hardreset.
    apply preserves_bind; [apply preserves_emit|intros _].
    destruct answer as [[]|]; [done|apply preserves_emit..].
  - unfold tournamentfix_resetmatches.
    apply preserves_bind; [apply dj_registry_get|intros l0].
    apply preserves_bind; [apply dj_deref|intros t].
    apply preserves_bind; [apply dj_modify|intros _].
    apply preserves_bind; [apply dj_modify|intros _].
    apply preserves_bind; [apply dj_save|intros _].
    destruct b; cbn [negb]; [|apply preserves_emit].
    apply preserves_bind; [apply preserves_emit|intros _].
    apply preserves_bind; [apply dj_delete_channels|intros failed].
    apply preserves_emit.
  - unfold tournamentfix_resetparticipants.
    apply preserves_bind; [apply dj_registry_get|intros l0].
    apply preserves_bind; [apply dj_deref|intros t].
    apply preserves_bind; [apply dj_modify|intros _].
    apply preserves_bind; [apply dj_save|intros _].
    destruct b; cbn [negb]; [|apply preserves_emit].
    apply preserves_bind; [apply preserves_emit|intros _].
    apply preserves_bind; [apply dj_remove_participant_roles|intros failed].
    apply preserves_emit.
  - unfold tournamentfix_refresh.
    apply preserves_bind; [apply dj_registry_get|intros l0].
    apply preserves_bind; [apply dj_deref|intros t].
    apply preserves_bind; [apply preserves_emit|intros _].
    apply preserves_bind; [apply dj_call|intros [e|d]];
      [apply preserves_raise|].
    apply preserves_bind; [apply dj_getitem|intros n].
    apply preserves_bind; [apply dj_modify|intros _].
    apply preserves_bind; [apply dj_getitem|intros lim].
    apply preserves_bind; [apply dj_modify|intros _].
    apply preserves_emit.
  - unfold tournamentfix_pausetask.
    apply preserves_bind; [apply dj_registry_get|intros l0].
    apply preserves_bind; [apply dj_deref|intros t].
    destruct (task t); [|apply preserves_emit].
    apply preserves_bind; [apply dj_modify|intros _].
    apply preserves_emit.
  - unfold tournamentfix_resumetask.
    apply preserves_bind; [apply dj_registry_get|intros l0].
    apply preserves_try; [apply dj_loop_task|intros e|intros _].
    + apply preserves_bind; [apply preserves_emit|intros _].
      apply preserves_emit.
    + apply preserves_bind; [apply dj_sleep|intros _].
      apply preserves_bind; [apply dj_modify|intros _].
      apply preserves_emit.
  - unfold tournamentfix_runtaskonce.
    apply preserves_bind; [apply dj_registry_get|intros l0].
    apply preserves_try; [apply dj_loop_task|intros e|intros _].
    + apply preserves_bind; [apply preserves_emit|intros _].
      apply preserves_emit.
    + apply preserves_emit.
Qed.

End DataInvariant.

(** X15. Saved data is erased by a confirmed hardreset only: a guild
    that has a tournament on disk still has one after any other command,
    for that guild or for another, whatever the command's outcome. *)
Theorem saved_data_only_erased_by_hardreset (c : Command) (g g0 : Z)
    (w : World) :
  c ≠ Hardreset (Some true) →
  saved w g0 ≠ SEmpty →
  saved (invoke env c g w).1.2 g0 ≠ SEmpty.
Proof.
  intros Hc Hsaved. destruct (check c g w) as [f|] eqn:Hcheck.
  { unfold invoke. by rewrite Hcheck. }
  rewrite invoke_world by done.
  apply (preserves_apply (λ w, saved w g0 ≠ SEmpty)); [|done].
  apply dj_callback; try done.
  intros w0 g1 t Hw0. unfold saved. simpl.
  destruct (decide (g1 = g0)) as [->|Hne].
  - by rewrite lookup_insert_eq.
  - by rewrite lookup_insert_ne.
Qed.


(** ** Answers to the operator *)

Lemma answered_after {A} (tr : list Event) (x : Out A) :
  answered x → answered (after tr x).
Proof.
  destruct x as [[[e|a] w] tr0]; [done|]. intros (tr1 & ev & -> & Hev).
  exists (tr ++ tr1), ev. simpl. by rewrite app_assoc.
Qed.

Lemma answers_send (m : Msg) : answers (send m).
Proof. intros w. by exists [], (Send m). Qed.

Lemma answers_tick : answers (emit Tick).
Proof. intros w. by exists [], Tick. Qed.

Lemma answers_raise {A} (e : Exn) : answers (@raise A e).
Proof. by intros w. Qed.

Lemma answers_bind {A B} (c : Cmd A) (k : A → Cmd B) :
  (∀ a, answers (k a)) → answers (bind c k).
Proof.
  intros Hk w. unfold bind. destruct (c w) as [[[e|a] w1] tr1]; [done|].
  apply answered_after, Hk.
Qed.

Lemma answers_try {A B} (body : Cmd A) (handler : Exn → Cmd B)
    (orelse : A → Cmd B) :
  (∀ e, answers (handler e)) →
  (∀ a, answers (orelse a)) →
  answers (try_except_else body handler orelse).
Proof.
  intros Hh Ho w. unfold try_except_else.
  destruct (body w) as [[[e|a] w1] tr1]; apply answered_after; [apply Hh|apply Ho].
Qed.

Lemma answers_callback (c : Command) (g : Z) : answers (callback env c g).
Proof.
  destruct c as [| |answer|b|b| | | |]; cbn [callback].
  - unfold tournamentfix_reload. do 3 (apply answers_bind; intros ?).
    apply answers_try; intros ?; [apply answers_bind; intros ?|];
      apply answers_send.
  - unfold tournamentfix_restore. apply answers_bind; intros w0.
    destruct (bool_decide (is_Some (tournaments w0 !! g)));
      [apply answers_send|].
    do 2 (apply answers_bind; intros ?).
    apply answers_try; intros ?; [apply answers_bind; intros ?|];
      apply answers_send.
  - unfold tournamentfix_hardreset. apply answers_bind; intros _.
    destruct answer as [[]|]; [|apply answers_send..].
    do 5 (apply answers_bind; intros ?). apply answers_send.
  - unfold tournamentfix_resetmatches. do 5 (apply answers_bind; intros ?).
    destruct b; cbn [negb]; [|apply answers_send].
    do 2 (apply answers_bind; intros ?). apply answers_send.
  - unfold tournamentfix_resetparticipants.
    do 4 (apply answers_bind; intros ?).
    destruct b; cbn [negb]; [|apply answers_send].
    do 2 (apply answers_bind; intros ?). apply answers_send.
  - unfold tournamentfix_refresh. do 3 (apply answers_bind; intros ?).
    apply answers_bind; intros [e|d]; [apply answers_raise|].
    do 4 (apply answers_bind; intros ?). apply answers_send.
  - unfold tournamentfix_pausetask. do 2 (apply answers_bind; intros ?).
    destruct (task _); [|apply answers_send].
    apply answers_bind; intros ?. apply answers_send.
  - unfold tournamentfix_resumetask. apply answers_bind; intros ?.
    apply answers_try; intros ?.
    + apply answers_bind; intros ?. apply answers_send.
    + do 2 (apply answers_bind; intros ?). apply answers_send.
  - unfold tournamentfix_runtaskonce. apply answers_bind; intros ?.
    apply answers_try; intros ?.
    + apply answers_bind; intros ?. apply answers_send.
    + apply answers_tick.
Qed.

(** X17. No command ends in silence: whenever a command returns, the
    last thing it did was to send a message to the operator or, for
    [runtaskonce], to tick the command. *)
Theorem returned_commands_answer (c : Command) (g : Z) (w w' : World)
    (tr : list Event) :
  invoke env c g w = (Returned, w', tr) →
  ∃ tr0 e, tr = tr0 ++ [e] ∧ is_answer e = true.
Proof.
  unfold invoke. destruct (check c g w) as [f|]; [done|].
  pose proof (answers_callback c g w) as H.
  destruct (callback env c g w) as [[[e|[]] w1] tr1]; simpl; [done|].
  intros [= <- <-]. exact H.
Qed.

End Properties.

(** ** The commands on the sample worlds *)

Example resetmatches_sample :
  invoke sample_env (Resetmatches true) 7 sample_w
  = (Returned,
     mkWorld {[ 7%Z := 0 ]} [emptied sample_t]
       {[ 7%Z := to_dict (emptied sample_t) ]} 1000 3,
     [ConfigWrite 7 (to_dict (emptied sample_t));
      Send MsgMatchesResetDeleting;
      CallChannelDelete 11; CallChannelDelete 13; CallChannelDelete 14;
      Send (MsgChannelsDeleted 1)]).
Proof. vm_compute. reflexivity. Qed.

Example resetmatches_keep_channels_sample :
  invoke sample_env (Resetmatches false) 7 sample_w
  = (Returned,
     mkWorld {[ 7%Z := 0 ]} [emptied sample_t]
       {[ 7%Z := to_dict (emptied sample_t) ]} 1000 0,
     [ConfigWrite 7 (to_dict (emptied sample_t)); Send MsgMatchesReset]).
Proof. vm_compute. reflexivity. Qed.

Example hardreset_cancelled_sample :
  invoke sample_env (Hardreset (Some false)) 7 sample_w
  = (Returned, sample_w, [Send MsgHardresetPrompt; Send MsgCancelled]).
Proof. vm_compute. reflexivity. Qed.

Example hardreset_timed_out_sample :
  invoke sample_env (Hardreset None) 7 sample_w
  = (Returned, sample_w, [Send MsgHardresetPrompt; Send MsgTimedOut]).
Proof. vm_compute. reflexivity. Qed.

(** After a reload of the running tournament, the object dropped from the
    registry and the one registered in its place both have a loop. *)
Example reload_two_loops_sample :
  ∃ w' tr,
    invoke sample_env Reload 7 sample_w = (Returned, w', tr)
    ∧ tournaments w' !! 7%Z = Some 1
    ∧ (task <$> heap w' !! 0) = Some (Some LoopTask)
    ∧ (task <$> heap w' !! 1) = Some (Some LoopTask).
Proof. eexists _, _. split; [vm_compute; reflexivity|]. by vm_compute. Qed.

(** A restore when nothing is saved sends two messages that contradict
    each other. *)
Example restore_nothing_saved_sample :
  invoke sample_env Restore 7 blank_w
  = (Returned, mkWorld ∅ [] ∅ 1000 1,
     [Send MsgNothingOnDisk; CallRestore 7;
      LogError (KeyError (VStr "tournament")); Send MsgRestoreFailed]).
Proof. vm_compute. reflexivity. Qed.

Example resetparticipants_with_role_sample :
  invoke sample_env (Resetparticipants true) 7 checkin_w
  = (Returned,
     mkWorld {[ 7%Z := 0 ]} [set_participants [] checkin_t]
       {[ 7%Z := to_dict (set_participants [] checkin_t) ]} 25 2,
     [ConfigWrite 7 (to_dict (set_participants [] checkin_t));
      Send MsgParticipantsResetRemoving;
      CallRemoveRoles 1 (Some 500%Z); CallRemoveRoles 2 (Some 500%Z);
      Send (MsgRolesRemoved 1)]).
Proof. vm_compute. reflexivity. Qed.

Example runtaskonce_sample :
  ∃ w' tr,
    invoke sample_env Runtaskonce 7 sample_w = (Returned, w', tr)
    ∧ ((λ t, status <$> matches t) <$> heap w' !! 0)
      = Some [MFlaggedAfk; MOngoing; MFlaggedAfk; MFinished; MOngoing]
    ∧ last tr = Some Tick.
Proof. eexists _, _. split; [vm_compute; reflexivity|]. by vm_compute. Qed.

(** Paused first, the same tick flags nobody. *)
Example pause_then_tick_sample :
  ∃ w1 tr1 w2 tr2,
    invoke sample_env Pausetask 7 sample_w = (Returned, w1, tr1)
    ∧ invoke sample_env Runtaskonce 7 w1 = (Returned, w2, tr2)
    ∧ ((λ t, status <$> matches t) <$> heap w2 !! 0)
      = Some [MOngoing; MOngoing; MOngoing; MFinished; MOngoing].
Proof.
  eexists _, _, _, _.
  split; [vm_compute; reflexivity|]. split; [vm_compute; reflexivity|].
  by vm_compute.
Qed.

(** ** The theorems at the sample worlds *)

Lemma restore_rejected_when_registered_witness :
  tournaments sample_w !! 7%Z = Some 0
  ∧ invoke sample_env Restore 7 sample_w
    = (Returned, sample_w, [Send MsgAlreadySetup]).
Proof.
  split; [reflexivity|].
  apply (restore_rejected_when_registered sample_env 7 sample_w 0).
  reflexivity.
Defined.

Lemma restore_empty_marker_goes_on_witness :
  tournaments blank_w !! 7%Z = None
  ∧ saved blank_w 7 = SEmpty
  ∧ ∃ w',
      invoke sample_env Restore 7 blank_w
      = (Returned, w',
         [Send MsgNothingOnDisk; CallRestore 7;
          LogError (KeyError (VStr "tournament")); Send MsgRestoreFailed]).
Proof.
  split; [reflexivity|]. split; [reflexivity|].
  destruct (restore_empty_marker_goes_on sample_env 7 blank_w eq_refl eq_refl)
    as (w' & tr & Hrun & Htr).
  simpl in Htr. destruct Htr as [-> _]. by exists w'.
Defined.

Lemma reload_never_stops_the_loop_witness :
  tournaments sample_w !! 7%Z = Some 0
  ∧ heap sample_w !! 0 = Some sample_t
  ∧ guild sample_t = 7%Z
  ∧ ∃ w' tr,
      invoke sample_env Reload 7 sample_w
      = (Returned, w',
         ConfigWrite 7 (to_dict sample_t) :: CallRestore 7 :: tr)
      ∧ (task <$> heap w' !! 0) = Some (Some LoopTask).
Proof.
  split; [reflexivity|]. split; [reflexivity|]. split; [reflexivity|].
  destruct (reload_never_stops_the_loop sample_env 7 sample_w 0 sample_t
              eq_refl eq_refl eq_refl) as (w' & tr & Hrun & Hold & _).
  exists w', tr. split; [exact Hrun|]. by rewrite Hold.
Defined.

Lemma hardreset_then_restore_witness :
  tournaments sample_w !! 7%Z = Some 0
  ∧ heap sample_w !! 0 = Some sample_t
  ∧ ∃ w1 tr1 w2 tr2,
      invoke sample_env (Hardreset (Some true)) 7 sample_w
      = (Returned, w1, tr1)
      ∧ invoke sample_env Restore 7 w1
        = (Returned, w2, Send MsgNothingOnDisk :: CallRestore 7 :: tr2).
Proof.
  split; [reflexivity|]. split; [reflexivity|].
  destruct (hardreset_then_restore sample_env 7 sample_w 0 sample_t
              eq_refl eq_refl) as (Hrun & _ & _ & _ & _ & w2 & tr2 & Hrestore).
  by eexists _, _, w2, tr2.
Defined.

Lemma gate_rejects_before_any_effect_witness :
  Resetparticipants true ≠ Restore
  ∧ tournaments sample_w !! 8%Z = None
  ∧ invoke sample_env (Resetparticipants true) 8 sample_w
    = (Rejected NoActiveTournament, sample_w, [])
  ∧ invoke sample_env (Resetparticipants true) 7 sample_w
    = (Rejected (PhaseMismatch "ongoing" ["register"; "checkin"]),
       sample_w, []).
Proof.
  assert (Hc : Resetparticipants true ≠ Restore) by discriminate.
  split; [exact Hc|]. split; [reflexivity|].
  destruct (gate_rejects_before_any_effect sample_env
              (Resetparticipants true) 7 sample_w Hc) as [_ Hphase].
  destruct (gate_rejects_before_any_effect sample_env
              (Resetparticipants true) 8 sample_w Hc) as [Hnone _].
  split; [apply Hnone; reflexivity|].
  apply (Hphase 0 sample_t); [reflexivity..|discriminate|].
  apply (bool_decide_unpack _). vm_compute. exact I.
Defined.

Lemma resume_after_dry_run_only_witness :
  tournaments paused_w !! 7%Z = Some 0
  ∧ heap paused_w !! 0 = Some paused_t
  ∧ phase paused_t = "ongoing"
  ∧ task paused_t = None
  ∧ ∃ w1 tr1,
      invoke broken_env Resumetask 7 paused_w
      = (Returned, w1,
         tr1 ++ [LogError (Exception "bracket unreachable");
                 Send MsgResumeFailed])
      ∧ tournaments w1 !! 7%Z = Some 0
      ∧ ∃ t1, heap w1 !! 0 = Some t1
              ∧ task t1 = None ∧ phase t1 = "ongoing".
Proof.
  split; [reflexivity|]. split; [reflexivity|]. split; [reflexivity|].
  split; [reflexivity|].
  pose proof (resume_after_dry_run_only broken_env 7 paused_w 0 paused_t
                eq_refl eq_refl eq_refl eq_refl) as H.
  assert (E : (loop_task broken_env 0 paused_w).1.1
              = inl (Exception "bracket unreachable"))
    by (vm_compute; reflexivity).
  destruct (loop_task broken_env 0 paused_w) as [[[e|[]] w1] tr1];
    simpl in E; [|discriminate].
  injection E as ->. by exists w1, tr1.
Defined.



Lemma refresh_only_name_and_limit_witness :
  tournaments sample_w !! 7%Z = Some 0
  ∧ heap sample_w !! 0 = Some sample_t
  ∧ ∃ w' t',
      invoke sample_env Refresh 7 sample_w
      = (Returned, w', [CallShow 99; Send MsgRefreshed])
      ∧ heap w' = [t']
      ∧ name t' = VStr "Cup"
      ∧ limit t' = VInt 32
      ∧ same_but_name_and_limit sample_t t'.
Proof.
  split; [reflexivity|]. split; [reflexivity|].
  destruct (refresh_only_name_and_limit sample_env 7 sample_w 0 sample_t
              eq_refl eq_refl)
    as (r & w' & tr & t' & Hrun & _ & _ & Hheap & Hsame & Hok).
  destruct (Hok _ (VStr "Cup") (VInt 32) eq_refl eq_refl eq_refl)
    as (-> & Ht' & ->).
  exists w', t'. split; [exact Hrun|]. split; [exact Hheap|].
  rewrite Ht'. by split.
Defined.



Lemma hardreset_declined_changes_nothing_witness :
  tournaments sample_w !! 7%Z = Some 0
  ∧ heap sample_w !! 0 = Some sample_t
  ∧ Some false ≠ Some true
  ∧ invoke sample_env (Hardreset (Some false)) 7 sample_w
    = (Returned, sample_w, [Send MsgHardresetPrompt; Send MsgCancelled]).
Proof.
  assert (Hno : Some false ≠ Some true) by discriminate.
  split; [reflexivity|]. split; [reflexivity|]. split; [exact Hno|].
  exact (hardreset_declined_changes_nothing sample_env (Some false) 7
           sample_w 0 sample_t eq_refl eq_refl Hno).
Defined.

Lemma pausetask_inactive_changes_nothing_witness :
  tournaments paused_w !! 7%Z = Some 0
  ∧ heap paused_w !! 0 = Some paused_t
  ∧ phase paused_t = "ongoing"
  ∧ task paused_t = None
  ∧ invoke sample_env Pausetask 7 paused_w
    = (Returned, paused_w, [Send MsgTaskNotActive]).
Proof.
  split; [reflexivity|]. split; [reflexivity|]. split; [reflexivity|].
  split; [reflexivity|].
  exact (pausetask_inactive_changes_nothing sample_env 7 paused_w 0 paused_t
           eq_refl eq_refl eq_refl eq_refl).
Defined.

Lemma reload_failed_restore_witness :
  tournaments sample_w !! 7%Z = Some 0
  ∧ heap sample_w !! 0 = Some sample_t
  ∧ guild sample_t = 7%Z
  ∧ from_saved_data corrupt_env (calls sample_w) 7 (to_dict sample_t)
    = inl (Exception "corrupt")
  ∧ ∃ w',
      invoke corrupt_env Reload 7 sample_w
      = (Returned, w',
         [ConfigWrite 7 (to_dict sample_t); CallRestore 7;
          LogError (Exception "corrupt"); Send MsgReloadFailed])
      ∧ tournaments w' !! 7%Z = None
      ∧ saved w' 7 = to_dict sample_t.
Proof.
  split; [reflexivity|]. split; [reflexivity|]. split; [reflexivity|].
  split; [reflexivity|].
  exact (reload_failed_restore corrupt_env 7 sample_w 0 sample_t
           (Exception "corrupt") eq_refl eq_refl eq_refl eq_refl).
Defined.



Lemma restore_loads_saved_tournament_witness :
  tournaments on_disk_w !! 7%Z = None
  ∧ saved on_disk_w 7 = SData (set_task None sample_t)
  ∧ invoke sample_env Restore 7 on_disk_w
    = (Returned,
       mkWorld {[ 7%Z := 0 ]} [sample_t] {[ 7%Z := to_dict sample_t ]} 1000 1,
       [CallRestore 7; Send MsgRestored]).
Proof.
  split; [reflexivity|]. split; [reflexivity|].
  exact (restore_loads_saved_tournament sample_env 7 on_disk_w
           (set_task None sample_t) eq_refl eq_refl).
Defined.

Lemma restore_registers_once_witness :
  tournaments on_disk_w !! 7%Z = None
  ∧ saved on_disk_w 7 = SData (set_task None sample_t)
  ∧ from_saved_data sample_env (calls on_disk_w) 7
      (SData (set_task None sample_t))
    = inr (set_task None sample_t)
  ∧ ∃ w1,
      invoke sample_env Restore 7 on_disk_w
      = (Returned, w1, [CallRestore 7; Send MsgRestored])
      ∧ invoke sample_env Restore 7 w1
        = (Returned, w1, [Send MsgAlreadySetup]).
Proof.
  split; [reflexivity|]. split; [reflexivity|]. split; [reflexivity|].
  exact (restore_registers_once sample_env 7 on_disk_w
           (set_task None sample_t) (set_task None sample_t)
           eq_refl eq_refl eq_refl).
Defined.

Lemma runtaskonce_reports_outcome_witness :
  tournaments sample_w !! 7%Z = Some 0
  ∧ heap sample_w !! 0 = Some sample_t
  ∧ phase sample_t = "ongoing"
  ∧ (task <$> heap (invoke broken_env Runtaskonce 7 sample_w).1.2 !! 0)
    = Some (Some LoopTask).
Proof.
  split; [reflexivity|]. split; [reflexivity|]. split; [reflexivity|].
  destruct (runtaskonce_reports_outcome broken_env 7 sample_w 0 sample_t
              eq_refl eq_refl eq_refl) as [_ Htask].
  exact Htask.
Defined.

Lemma refresh_show_error_propagates_witness :
  tournaments sample_w !! 7%Z = Some 0
  ∧ heap sample_w !! 0 = Some sample_t
  ∧ show offline_env (calls sample_w) (tournament_id sample_t)
    = inl (Exception "bracket unreachable")
  ∧ invoke offline_env Refresh 7 sample_w
    = (Raised (Exception "bracket unreachable"), with_calls 1 sample_w,
       [CallShow 99]).
Proof.
  split; [reflexivity|]. split; [reflexivity|]. split; [reflexivity|].
  exact (refresh_show_error_propagates offline_env 7 sample_w 0 sample_t
           (Exception "bracket unreachable") eq_refl eq_refl eq_refl).
Defined.


Lemma resetmatches_twice_witness :
  tournaments sample_w !! 7%Z = Some 0
  ∧ heap sample_w !! 0 = Some sample_t
  ∧ phase sample_t = "ongoing"
  ∧ ∃ w1 tr1,
      invoke sample_env (Resetmatches true) 7 sample_w = (Returned, w1, tr1)
      ∧ invoke sample_env (Resetmatches true) 7 w1
        = (Returned, w1,
           [ConfigWrite 7 (to_dict (emptied sample_t));
            Send MsgMatchesResetDeleting; Send (MsgChannelsDeleted 0)]).
Proof.
  split; [reflexivity|]. split; [reflexivity|]. split; [reflexivity|].
  exact (resetmatches_twice sample_env true true 7 sample_w 0 sample_t
           eq_refl eq_refl eq_refl).
Defined.

Lemma registry_left_alone_witness :
  Resetmatches true ≠ Reload
  ∧ Resetmatches true ≠ Restore
  ∧ Resetmatches true ≠ Hardreset (Some true)
  ∧ tournaments (invoke sample_env (Resetmatches true) 7 sample_w).1.2
    = tournaments sample_w.
Proof.
  assert (H1 : Resetmatches true ≠ Reload) by discriminate.
  assert (H2 : Resetmatches true ≠ Restore) by discriminate.
  assert (H3 : Resetmatches true ≠ Hardreset (Some true)) by discriminate.
  split; [exact H1|]. split; [exact H2|]. split; [exact H3|].
  exact (registry_left_alone sample_env (Resetmatches true) 7 sample_w
           H1 H2 H3).
Defined.

Lemma strict_env_loads_own_guild : loads_own_guild strict_env.
Proof.
  intros k g [|d] t; simpl; [done|].
  destruct (decide (guild d = g)); [|done]. by intros [= <-].
Qed.

Lemma two_guilds_w_wf : registry_wf two_guilds_w.
Proof.
  intros g l Hreg. unfold two_guilds_w in *. simpl in *.
  apply lookup_insert_Some in Hreg as [[<- <-]|[_ Hreg]];
    [by exists sample_t|].
  apply lookup_singleton_Some in Hreg as [<- <-]. by exists other_t.
Qed.

Lemma registry_wf_kept_witness :
  loads_own_guild strict_env
  ∧ registry_wf two_guilds_w
  ∧ registry_wf
      (run_commands strict_env
         [(Resetmatches true, 7%Z); (Reload, 7%Z);
          (Hardreset (Some true), 8%Z)]
         two_guilds_w).
Proof.
  split; [exact strict_env_loads_own_guild|].
  split; [exact two_guilds_w_wf|].
  exact (registry_wf_kept strict_env _ two_guilds_w
           strict_env_loads_own_guild two_guilds_w_wf).
Defined.

Lemma other_guilds_untouched_witness :
  loads_own_guild strict_env
  ∧ registry_wf two_guilds_w
  ∧ Forall (λ cg : Command * Z, cg.2 ≠ 8%Z)
      [(Resetmatches true, 7%Z); (Reload, 7%Z); (Hardreset (Some true), 7%Z)]
  ∧ tournaments
      (run_commands strict_env
         [(Resetmatches true, 7%Z); (Reload, 7%Z);
          (Hardreset (Some true), 7%Z)]
         two_guilds_w) !! 8%Z
    = Some 1
  ∧ saved
      (run_commands strict_env
         [(Resetmatches true, 7%Z); (Reload, 7%Z);
          (Hardreset (Some true), 7%Z)]
         two_guilds_w) 8
    = to_dict other_t.
Proof.
  assert (Hcs : Forall (λ cg : Command * Z, cg.2 ≠ 8%Z)
            [(Resetmatches true, 7%Z); (Reload, 7%Z);
             (Hardreset (Some true), 7%Z)])
    by (repeat constructor; discriminate).
  split; [exact strict_env_loads_own_guild|].
  split; [exact two_guilds_w_wf|]. split; [exact Hcs|].
  destruct (other_guilds_untouched strict_env _ 8 two_guilds_w
              strict_env_loads_own_guild two_guilds_w_wf Hcs)
    as (Hr & Hd & _).
  split; [by rewrite Hr|]. unfold saved. by rewrite Hd.
Defined.

Lemma saved_data_only_erased_by_hardreset_witness :
  Reload ≠ Hardreset (Some true)
  ∧ saved sample_w 7 ≠ SEmpty
  ∧ saved (invoke corrupt_env Reload 7 sample_w).1.2 7 ≠ SEmpty.
Proof.
  assert (H1 : Reload ≠ Hardreset (Some true)) by discriminate.
  assert (H2 : saved sample_w 7 ≠ SEmpty) by discriminate.
  split; [exact H1|]. split; [exact H2|].
  exact (saved_data_only_erased_by_hardreset corrupt_env Reload 7 7 sample_w
           H1 H2).
Defined.


Lemma returned_commands_answer_witness :
  invoke sample_env Pausetask 7 sample_w
  = (Returned, with_heap [stopped sample_t] sample_w, [Send MsgTaskStopped])
  ∧ ∃ tr0 e, [Send MsgTaskStopped] = tr0 ++ [e] ∧ is_answer e = true.
Proof.
  split; [reflexivity|].
  exact (returned_commands_answer sample_env Pausetask 7 sample_w _ _ eq_refl).
Defined.
